(** * PriorityQueue.h: an array-backed priority queue

  A shallow embedding of [PriorityQueue<E>] and of its private classes
  [MinHeap] and [HeapNode] (src/PriorityQueue.h), followed by the
  properties of the queue that the specification states.

  Conventions of the embedding.
  - The [std::vector<HeapNode>] is a [list HeapNode]; [heap[i]] is stdpp's
    lookup [h !! i] and an assignment [heap[i] = x] is [<[i:=x]> h].
  - A priority is a C++ [int].  The code only stores and compares
    priorities, it never does arithmetic on them, so they are modelled as
    [Z] without wrap-around.
  - Indices are non-negative [int]s bounded by the vector size; they are
    [nat] where the code only counts, and [Z] where the code relies on
    C++ integer division ([getParent]) or on the sentinel [-1]
    ([findFirst], [get_priority]).
  - [operator==] on the element type [E] is a decidable equality.
  - Reading the vector out of range is undefined behaviour in C++.  The
    only public call that can do so is [peek] on an empty queue, which is
    modelled by [None]. *)

From Stdlib Require Import ZArith Lia Zify ZifyNat.
From stdpp Require Import base list strings.

#[local] Open Scope Z_scope.

(** ** HeapNode *)

Section HeapNode.
Context {E : Type}.

(** [class HeapNode]: the private fields [priority] and [value]; the
    constructor [HeapNode(newPriority, newValue)] is [Build_HeapNode]. *)
Record HeapNode : Type := Build_HeapNode { priority : Z; value : E }.

(** [void setPriority(int newPriority)]. *)
Definition setPriority (newPriority : Z) (n : HeapNode) : HeapNode :=
  {| priority := newPriority; value := value n |}.
End HeapNode.

Arguments HeapNode : clear implicits.

(** ** MinHeap *)

Module MinHeap.
(** The single field [std::vector<HeapNode> heap]. *)
Abbreviation t E := (list (HeapNode E)).

Section MinHeap.
Context {E : Type} `{EqDecision E}.
#[local] Abbreviation heap_t := (t E).

(** [MinHeap()]. *)
Definition new : heap_t := [].

(** [void swap(int indexOne, int indexTwo)].  Both indices are in range at
    every call site (see [heapify_pass_reads_in_range] for [heapify]). *)
Definition swap (indexOne indexTwo : nat) (heap : heap_t) : heap_t :=
  match heap !! indexOne, heap !! indexTwo with
  | Some tmp, Some other => <[indexTwo := tmp]> (<[indexOne := other]> heap)
  | _, _ => heap
  end.

(** [int getParent(int index)], with C++ [%] and [/] on [int]
    (truncation towards zero, so that [(0 - 1) / 2 = 0]). *)
Definition getParent (index : Z) : Z :=
  if Z.rem index 2 =? 1 then Z.quot index 2 else Z.quot (index - 1) 2.

(** [int getSize()]. *)
Definition getSize (heap : heap_t) : nat := length heap.

(** [E getMin()]: [heap[0].getValue()]; [None] is the out-of-range read. *)
Definition getMin (heap : heap_t) : option E := value <$> heap !! 0%nat.

(** [E getValue(int index)] and [int getPriority(int index)]. *)
Definition getValue (index : nat) (heap : heap_t) : option E :=
  value <$> heap !! index.
Definition getPriority (index : nat) (heap : heap_t) : option Z :=
  priority <$> heap !! index.

(** [int findFirst(E element)]: the loop [for (i = 0; i < getSize(); i++)]
    walks the vector from the front; [i] is the index of the head of the
    part still to scan. *)
Fixpoint findFirst_from (i : Z) (element : E) (rest : heap_t) : Z :=
  match rest with
  | [] => -1
  | n :: rest' =>
      if decide (value n = element) then i
      else findFirst_from (i + 1) element rest'
  end.
Definition findFirst (element : E) (heap : heap_t) : Z :=
  findFirst_from 0 element heap.

(** One run of the [for] loop of [heapify]: [i] counts down from
    [heap.size()/2] to [1] and [index = i - 1].  The result carries the
    flag [solved]. *)
Fixpoint heapify_pass (i : nat) (heap : heap_t) (solved : bool) : heap_t * bool :=
  match i with
  | O => (heap, solved)
  | S index =>
      match heap !! index, heap !! (index * 2)%nat with
      | Some n, Some l =>
          if priority n >? priority l
          then heapify_pass index (swap index (index * 2) heap) false
          else
            match heap !! (index * 2 + 1)%nat with
            | Some r =>
                if priority n >? priority r
                then heapify_pass index (swap index (index * 2 + 1) heap) false
                else heapify_pass index heap solved
            | None => (heap, solved)
            end
      | _, _ => (heap, solved)
      end
  end.

(** The [while (!solved)] loop of [heapify]; [None] when the fuel runs
    out before the loop exits. *)
Fixpoint heapify_loop (fuel : nat) (heap : heap_t) : option heap_t :=
  match fuel with
  | O => None
  | S fuel' =>
      let '(heap', solved) := heapify_pass (length heap / 2)%nat heap true in
      if solved then Some heap' else heapify_loop fuel' heap'
  end.

(** A bound on the number of passes.  Every swap of [heapify] moves a
    strictly smaller priority to a strictly smaller index, which lowers
    [weight B 0 heap] (the sum of [i * (B - priority heap[i])]) by at
    least one; the weight is non-negative when [B] bounds the priorities. *)
Fixpoint weight (B k : Z) (heap : heap_t) : Z :=
  match heap with
  | [] => 0
  | n :: rest => k * (B - priority n) + weight B (k + 1) rest
  end.
Fixpoint max_priority (heap : heap_t) : Z :=
  match heap with
  | [] => 0
  | n :: rest => Z.max (priority n) (max_priority rest)
  end.
Definition bounded (B : Z) (heap : heap_t) : Prop :=
  Forall (fun n => priority n <= B) heap.
Definition heapify_fuel (heap : heap_t) : nat :=
  S (Z.to_nat (weight (max_priority heap) 0 heap)).

(** [void heapify()].  The loop always exits within [heapify_fuel]
    passes ([heapify_loop_enough]), so the [None] branch is never taken. *)
Definition heapify (heap : heap_t) : heap_t :=
  match heapify_loop (heapify_fuel heap) heap with
  | Some heap' => heap'
  | None => heap
  end.

(** The [while] loop of [upHeap]; [i] and [parent] are the C++ [int]s. *)
Fixpoint upHeap_loop (fuel : nat) (i : Z) (heap : heap_t) : option heap_t :=
  match fuel with
  | O => None
  | S fuel' =>
      let parent := getParent i in
      match heap !! Z.to_nat i, heap !! Z.to_nat parent with
      | Some n, Some p =>
          if negb (parent =? i) && (priority n <? priority p)
          then upHeap_loop fuel' parent (swap (Z.to_nat i) (Z.to_nat parent) heap)
          else Some heap
      | _, _ => Some heap
      end
  end.

(** [void upHeap()], starting at [i = heap.size() - 1].  The index halves
    at every iteration, so [heap.size()] iterations are enough
    ([upHeap_loop_enough]). *)
Definition upHeap (heap : heap_t) : heap_t :=
  match upHeap_loop (length heap) (Z.of_nat (length heap) - 1) heap with
  | Some heap' => heap'
  | None => heap
  end.

(** [void changePriority(E element, int newPriority)]. *)
Definition changePriority (element : E) (newPriority : Z) (heap : heap_t) : heap_t :=
  let nodeIndex := findFirst element heap in
  if negb (nodeIndex =? -1)
  then heapify (alter (setPriority newPriority) (Z.to_nat nodeIndex) heap)
  else heap.

(** [heap.pop_back()]. *)
Definition pop_back (heap : heap_t) : heap_t := take (length heap - 1)%nat heap.

(** [void removeFront()]. *)
Definition removeFront (heap : heap_t) : heap_t :=
  heapify (pop_back (swap 0 (length heap - 1) heap)).

(** [void insert(int priority, E element)]. *)
Definition insert (priority : Z) (element : E) (heap : heap_t) : heap_t :=
  if priority >=? 0
  then upHeap (heap ++ [Build_HeapNode priority element])
  else heap.

(** [void insertAll(std::vector<std::pair<int,E>> newValues)]: the [for]
    loop pushes the pairs one by one, then [heapify] runs once. *)
Definition push_all (newValues : list (Z * E)) (heap : heap_t) : heap_t :=
  fold_left (fun h pe => h ++ [Build_HeapNode pe.1 pe.2]) newValues heap.
Definition insertAll (newValues : list (Z * E)) (heap : heap_t) : heap_t :=
  heapify (push_all newValues heap).

End MinHeap.
End MinHeap.

(** ** PriorityQueue *)

Section PriorityQueue.
Context {E : Type} `{EqDecision E}.
(** [E()], the value-initialised element that [remove_front] returns on
    an empty queue. *)
Context (E_default : E).

(** The single field [MinHeap minHeap]. *)
Record PriorityQueue : Type := Build_PriorityQueue { minHeap : MinHeap.t E }.

(** [PriorityQueue()]. *)
Definition new : PriorityQueue := {| minHeap := MinHeap.new |}.

(** [int size()] and [bool empty()]. *)
Definition size (q : PriorityQueue) : nat := MinHeap.getSize (minHeap q).
Definition empty (q : PriorityQueue) : bool := (MinHeap.getSize (minHeap q) =? 0)%nat.

(** [void insert(int priority, E element)]. *)
Definition insert (priority : Z) (element : E) (q : PriorityQueue) : PriorityQueue :=
  {| minHeap := MinHeap.insert priority element (minHeap q) |}.

(** [void insert_all(std::vector<std::pair<int,E>> new_elements)]. *)
Definition insert_all (new_elements : list (Z * E)) (q : PriorityQueue) : PriorityQueue :=
  {| minHeap := MinHeap.insertAll new_elements (minHeap q) |}.

(** [E remove_front()]: the returned value and the queue afterwards.  In
    the guarded branch the queue is not empty, so [getMin] reads in
    range. *)
Definition remove_front (q : PriorityQueue) : E * PriorityQueue :=
  if negb (empty q) then
    match MinHeap.getMin (minHeap q) with
    | Some lowestPriorityValue =>
        (lowestPriorityValue, {| minHeap := MinHeap.removeFront (minHeap q) |})
    | None => (E_default, q)
    end
  else (E_default, q).

(** [E peek()]: no guard; [None] on an empty queue (out-of-range read). *)
Definition peek (q : PriorityQueue) : option E := MinHeap.getMin (minHeap q).

(** [std::vector<E> get_all_elements()]: the loop visits the indices
    [0 .. getSize()-1] in order and pushes [getValue(i)]. *)
Definition get_all_elements (q : PriorityQueue) : list E :=
  fold_left (fun elements n => elements ++ [value n]) (minHeap q) [].

(** [bool contains(E element)]. *)
Fixpoint contains_from (element : E) (rest : MinHeap.t E) : bool :=
  match rest with
  | [] => false
  | n :: rest' =>
      if decide (value n = element) then true else contains_from element rest'
  end.
Definition contains (element : E) (q : PriorityQueue) : bool :=
  contains_from element (minHeap q).

(** [int get_priority(E element)]: [lowest] starts at [-1]; the branch
    [else if (getPriority(i) < lowest)] has an empty body. *)
Fixpoint get_priority_from (element : E) (rest : MinHeap.t E) (lowest : Z) : Z :=
  match rest with
  | [] => lowest
  | n :: rest' =>
      if decide (value n = element) then
        if lowest =? -1 then get_priority_from element rest' (priority n)
        else if priority n <? lowest then get_priority_from element rest' lowest
        else get_priority_from element rest' lowest
      else get_priority_from element rest' lowest
  end.
Definition get_priority (element : E) (q : PriorityQueue) : Z :=
  get_priority_from element (minHeap q) (-1).

(** [std::vector<int> get_all_priorities()]. *)
Definition get_all_priorities (q : PriorityQueue) : list Z :=
  fold_left (fun priorities n => priorities ++ [priority n]) (minHeap q) [].

(** [void change_priority(E element, int new_priority)]. *)
Definition change_priority (element : E) (new_priority : Z) (q : PriorityQueue)
  : PriorityQueue :=
  {| minHeap := MinHeap.changePriority element new_priority (minHeap q) |}.

(** *** The queue as a state machine

    A client drives a queue through its public methods.  [call] names a
    method with its arguments, [run] gives the returned value and the
    queue after the call.  Methods whose body assigns nothing return the
    queue they were given.  [run] is [None] where the call has no defined
    behaviour: [peek()] on an empty queue evaluates [heap[0]] on an empty
    vector, after which C++ guarantees neither a result nor a queue. *)
Inductive call : Type :=
| Insert (priority : Z) (element : E)
| InsertAll (new_elements : list (Z * E))
| RemoveFront
| Peek
| GetAllElements
| Contains (element : E)
| GetPriority (element : E)
| GetAllPriorities
| ChangePriority (element : E) (new_priority : Z)
| Size
| Empty.

Inductive result : Type :=
| RVoid
| RElement (e : E)
| RElements (es : list E)
| RBool (b : bool)
| RInt (z : Z)
| RInts (zs : list Z).

Definition run (c : call) (q : PriorityQueue)
  : option (result * PriorityQueue) :=
  match c with
  | Insert p e => Some (RVoid, insert p e q)
  | InsertAll items => Some (RVoid, insert_all items q)
  | RemoveFront => let '(e, q') := remove_front q in Some (RElement e, q')
  | Peek => match peek q with Some e => Some (RElement e, q) | None => None end
  | GetAllElements => Some (RElements (get_all_elements q), q)
  | Contains e => Some (RBool (contains e q), q)
  | GetPriority e => Some (RInt (get_priority e q), q)
  | GetAllPriorities => Some (RInts (get_all_priorities q), q)
  | ChangePriority e p => Some (RVoid, change_priority e p q)
  | Size => Some (RInt (Z.of_nat (size q)), q)
  | Empty => Some (RBool (empty q), q)
  end.

(** What [size()] returns right after the call [c]; [None] when the call
    has no defined behaviour. *)
Definition size_after (c : call) (q : PriorityQueue) : option nat :=
  match run c q with
  | Some (_, q') => Some (size q')
  | None => None
  end.

(** The queues a client can build: a new queue, and the queue left by any
    public call with defined behaviour on a reachable queue. *)
Inductive reachable : PriorityQueue -> Prop :=
| reachable_new : reachable new
| reachable_run (c : call) (q : PriorityQueue) (r : result) (q' : PriorityQueue) :
    reachable q -> run c q = Some (r, q') -> reachable q'.

(** [n] successive [remove_front()] calls: the values returned, in call
    order, and the queue afterwards. *)
Fixpoint drain (n : nat) (q : PriorityQueue) : list E * PriorityQueue :=
  match n with
  | O => ([], q)
  | S n' =>
      let '(e, q') := remove_front q in
      let '(es, q'') := drain n' q' in
      (e :: es, q'')
  end.

(** *** The properties the specification states *)

(** The 0-based min-heap invariant: the node at index [i] is not above
    its children at [2i+1] and [2i+2], where they exist. *)
Definition min_heap_invariant (heap : MinHeap.t E) : Prop :=
  forall (i : nat) (n c : HeapNode E),
    heap !! i = Some n ->
    heap !! (2 * i + 1)%nat = Some c \/ heap !! (2 * i + 2)%nat = Some c ->
    priority n <= priority c.

(** The loop invariant of [upHeap] while the new node sits at index [i]:
    every other node is not below its parent [(j-1)/2], and the children of
    [i] are not below the parent of [i]. *)
Definition parent_ordered_except (i : nat) (heap : MinHeap.t E) : Prop :=
  forall (j : nat) (n m : HeapNode E),
    (0 < j)%nat -> j <> i ->
    heap !! j = Some n -> heap !! ((j - 1) / 2)%nat = Some m ->
    priority m <= priority n.
Definition grandparent_ordered (i : nat) (heap : MinHeap.t E) : Prop :=
  forall (c : nat) (n m : HeapNode E),
    (0 < i)%nat -> (0 < c)%nat -> ((c - 1) / 2)%nat = i ->
    heap !! c = Some n -> heap !! ((i - 1) / 2)%nat = Some m ->
    priority m <= priority n.

(** The smallest priority stored: [p] is stored and nothing stored is
    below it. *)
Definition minimum_priority (p : Z) (heap : MinHeap.t E) : Prop :=
  (exists n, n ∈ heap /\ priority n = p) /\
  (forall n, n ∈ heap -> p <= priority n).

(** Following the specification's words for [priorityOf]: the priority of
    the first node, in storage order, whose value is [element]; [-1] when
    there is none. *)
Definition first_found_priority (element : E) (heap : MinHeap.t E) : Z :=
  match list_find (fun n => value n = element) heap with
  | Some (_, n) => priority n
  | None => -1
  end.

(** What [get_priority] computes: the priority of the first node, in
    storage order, whose value is [element] and whose priority is not the
    sentinel [-1]; [-1] when there is none. *)
Definition first_found_priority_not_sentinel
    (element : E) (heap : MinHeap.t E) : Z :=
  match list_find (fun n => value n = element /\ priority n <> -1) heap with
  | Some (_, n) => priority n
  | None => -1
  end.

(** [element] is the value of exactly one stored node. *)
Definition stored_once (element : E) (heap : MinHeap.t E) : Prop :=
  length (filter (fun n => value n = element) heap) = 1%nat.

End PriorityQueue.

Arguments PriorityQueue : clear implicits.
Arguments call : clear implicits.
Arguments result : clear implicits.

(** ** Concrete queues of strings used below *)

(** [insert(1,"w"); insert(3,"x"); insert(2,"y"); insert(4,"z")]. *)
Definition queue_wxyz : PriorityQueue string :=
  insert 4 "z" (insert 2 "y" (insert 3 "x" (insert 1 "w" new))).

(** [insert(1,"b"); insert(2,"c"); insert(3,"a")]. *)
Definition queue_bca : PriorityQueue string :=
  insert 3 "a" (insert 2 "c" (insert 1 "b" new)).

(** [insert_all({(-1,"a"), (5,"a")})]: two nodes with the same value, the
    first one carrying priority [-1]. *)
Definition queue_sentinel : PriorityQueue string :=
  insert_all [(-1, "a"); (5, "a")] new.



(** * Properties of the heap primitives *)

#[local] Arguments Nat.div : simpl never.

(** Linear arithmetic with division by a constant. *)
Ltac div_lia := zify; Z.to_euclidean_division_equations; lia.

Section MinHeapFacts.
Context {E : Type} `{EqDecision E}.
Implicit Types (heap h : list (HeapNode E)) (n : HeapNode E).

(** ** swap *)

Lemma swap_length i j h : length (MinHeap.swap i j h) = length h.
Proof.
  unfold MinHeap.swap.
  destruct (h !! i), (h !! j); rewrite ?length_insert; reflexivity.
Qed.

Lemma insert_cons_perm (a b : HeapNode E) j h :
  h !! j = Some b -> b :: <[j:=a]> h ≡ₚ a :: h.
Proof.
  revert j; induction h as [|c h IH]; intros [|j] Hj; simplify_eq/=.
  - apply perm_swap.
  - etransitivity; [apply perm_swap|].
    etransitivity; [|apply perm_swap]. constructor. by apply IH.
Qed.

Lemma swap_perm i j h : MinHeap.swap i j h ≡ₚ h.
Proof.
  unfold MinHeap.swap.
  destruct (h !! i) as [a|] eqn:Hi; [|done].
  destruct (h !! j) as [b|] eqn:Hj; [|done].
  revert i j Hi Hj; induction h as [|c h IH]; intros [|i] [|j] Hi Hj;
    simplify_eq/=; auto using insert_cons_perm.
Qed.

Lemma swap_lookup_l i j h a b :
  h !! i = Some a -> h !! j = Some b -> MinHeap.swap i j h !! i = Some b.
Proof.
  intros Hi Hj. unfold MinHeap.swap. rewrite Hi, Hj.
  destruct (decide (i = j)) as [->|Hne].
  - simplify_eq. apply list_lookup_insert_eq. rewrite length_insert.
    by eapply lookup_lt_Some.
  - rewrite list_lookup_insert_ne by done.
    apply list_lookup_insert_eq. by eapply lookup_lt_Some.
Qed.

Lemma swap_lookup_r i j h a b :
  h !! i = Some a -> h !! j = Some b -> MinHeap.swap i j h !! j = Some a.
Proof.
  intros Hi Hj. unfold MinHeap.swap. rewrite Hi, Hj.
  apply list_lookup_insert_eq. rewrite length_insert.
  by eapply lookup_lt_Some.
Qed.

Lemma swap_lookup_other i j k h :
  k <> i -> k <> j -> MinHeap.swap i j h !! k = h !! k.
Proof.
  intros Hi Hj. unfold MinHeap.swap.
  destruct (h !! i), (h !! j); try done.
  by rewrite !list_lookup_insert_ne.
Qed.

(** ** The termination measure of heapify *)

Lemma bounded_max_priority h : MinHeap.bounded (MinHeap.max_priority h) h.
Proof.
  induction h as [|n h IH]; constructor; simpl; [lia|].
  eapply Forall_impl; [exact IH|]. simpl; intros; lia.
Qed.

Lemma bounded_swap B i j h :
  MinHeap.bounded B h -> MinHeap.bounded B (MinHeap.swap i j h).
Proof. unfold MinHeap.bounded. by rewrite swap_perm. Qed.

Lemma weight_nonneg B k h :
  MinHeap.bounded B h -> 0 <= k -> 0 <= MinHeap.weight B k h.
Proof.
  intros Hb; revert k; induction Hb as [|n h Hn _ IH]; intros k Hk; simpl.
  - lia.
  - specialize (IH (k + 1)). nia.
Qed.

Lemma weight_insert B k i h (x y : HeapNode E) :
  h !! i = Some y ->
  MinHeap.weight B k (<[i:=x]> h)
  = MinHeap.weight B k h + (k + Z.of_nat i) * (priority y - priority x).
Proof.
  revert k i; induction h as [|n h IH]; intros k [|i] Hi; simplify_eq/=.
  - ring.
  - rewrite (IH _ _ Hi). lia.
Qed.

Lemma weight_swap B i j h a b :
  h !! i = Some a -> h !! j = Some b ->
  MinHeap.weight B 0 (MinHeap.swap i j h)
  = MinHeap.weight B 0 h
    - (Z.of_nat j - Z.of_nat i) * (priority a - priority b).
Proof.
  intros Hi Hj. unfold MinHeap.swap. rewrite Hi, Hj.
  destruct (decide (i = j)) as [->|Hne].
  - assert (a = b) as -> by congruence.
    rewrite (weight_insert _ _ _ _ _ b), (weight_insert _ _ _ _ _ b); [lia|done|].
    apply list_lookup_insert_eq. by eapply lookup_lt_Some.
  - rewrite (weight_insert _ _ _ _ _ b), (weight_insert _ _ _ _ _ a); [lia|done|].
    by rewrite list_lookup_insert_ne.
Qed.

(** A swap of [heapify] exchanges a node with a later one of strictly
    smaller priority. *)
Lemma weight_swap_lt B i j h a b :
  h !! i = Some a -> h !! j = Some b -> (i < j)%nat -> priority b < priority a ->
  MinHeap.weight B 0 (MinHeap.swap i j h) < MinHeap.weight B 0 h.
Proof.
  intros Hi Hj Hlt Hp. rewrite (weight_swap _ _ _ _ _ _ Hi Hj). nia.
Qed.

(** ** heapify *)

(** Every index that [heapify] reads is in range: for [1 <= i <= size/2]
    and [index = i - 1], the largest index read is [index*2+1 <= size-1]. *)
Lemma heapify_pass_reads_in_range h (index : nat) :
  (S index <= length h / 2)%nat ->
  is_Some (h !! index) /\ is_Some (h !! (index * 2)%nat)
  /\ is_Some (h !! (index * 2 + 1)%nat).
Proof.
  intros Hi.
  assert (2 * (length h / 2) <= length h)%nat
    by (apply Nat.Div0.mul_div_le).
  split_and!; apply lookup_lt_is_Some; lia.
Qed.

(** What one pass does: it permutes the heap, never raises the weight,
    lowers it when it clears [solved], and leaves the heap alone when
    [solved] is still set at the end. *)
Lemma heapify_pass_spec B i h s h' s' :
  MinHeap.bounded B h ->
  MinHeap.heapify_pass i h s = (h', s') ->
  h' ≡ₚ h
  /\ MinHeap.weight B 0 h' <= MinHeap.weight B 0 h
  /\ (s = true -> s' = false -> MinHeap.weight B 0 h' < MinHeap.weight B 0 h)
  /\ (s' = true -> s = true /\ h' = h).
Proof.
  revert h s; induction i as [|index IH]; intros h s Hb Hpass; simpl in Hpass.
  { simplify_eq. split_and!; auto; try lia; congruence. }
  destruct (h !! index) as [n|] eqn:Hn;
    [|simplify_eq; split_and!; auto; try lia; congruence].
  destruct (h !! (index * 2)%nat) as [l|] eqn:Hl;
    [|simplify_eq; split_and!; auto; try lia; congruence].
  destruct (Z.gtb_spec (priority n) (priority l)) as [Hgt|Hle].
  - assert (index <> index * 2)%nat by (intros Heq; rewrite <- Heq in Hl; simplify_eq; lia).
    pose proof (weight_swap_lt B _ _ _ _ _ Hn Hl ltac:(lia) Hgt) as Hw.
    destruct (IH _ _ (bounded_swap _ _ _ _ Hb) Hpass) as (Hp & Hle' & _ & Hs).
    split_and!.
    + by rewrite Hp, swap_perm.
    + lia.
    + intros; lia.
    + intros Hs'. by destruct (Hs Hs').
  - destruct (h !! (index * 2 + 1)%nat) as [r|] eqn:Hr;
      [|simplify_eq; split_and!; auto; try lia; congruence].
    destruct (Z.gtb_spec (priority n) (priority r)) as [Hgt|Hle2].
    + pose proof (weight_swap_lt B _ _ _ _ _ Hn Hr ltac:(lia) Hgt) as Hw.
      destruct (IH _ _ (bounded_swap _ _ _ _ Hb) Hpass) as (Hp & Hle' & _ & Hs).
      split_and!.
      * by rewrite Hp, swap_perm.
      * lia.
      * intros; lia.
      * intros Hs'. by destruct (Hs Hs').
    + by apply IH.
Qed.

Lemma heapify_loop_perm fuel h r :
  MinHeap.heapify_loop fuel h = Some r -> r ≡ₚ h.
Proof.
  revert h; induction fuel as [|fuel IH]; intros h Hr; simpl in Hr; [done|].
  destruct (MinHeap.heapify_pass (length h / 2) h true) as [h' s'] eqn:Hpass.
  destruct (heapify_pass_spec _ _ _ _ _ _ (bounded_max_priority h) Hpass)
    as (Hp & _).
  destruct s'; [by simplify_eq|].
  etransitivity; [by apply IH|done].
Qed.

Lemma heapify_loop_mono fuel fuel' h r :
  MinHeap.heapify_loop fuel h = Some r -> (fuel <= fuel')%nat ->
  MinHeap.heapify_loop fuel' h = Some r.
Proof.
  revert fuel' h; induction fuel as [|fuel IH]; intros [|fuel'] h Hr Hle;
    simpl in *; try done; try lia.
  destruct (MinHeap.heapify_pass (length h / 2) h true) as [h' [|]]; [done|].
  apply IH; [done|lia].
Qed.

Lemma heapify_loop_exits B fuel h :
  MinHeap.bounded B h -> MinHeap.weight B 0 h < Z.of_nat fuel ->
  is_Some (MinHeap.heapify_loop fuel h).
Proof.
  revert h; induction fuel as [|fuel IH]; intros h Hb Hw.
  { pose proof (weight_nonneg B 0 h Hb). lia. }
  simpl.
  destruct (MinHeap.heapify_pass (length h / 2) h true) as [h' s'] eqn:Hpass.
  destruct (heapify_pass_spec _ _ _ _ _ _ Hb Hpass) as (Hp & _ & Hlt & _).
  destruct s'; [done|]. apply IH.
  - unfold MinHeap.bounded. by rewrite Hp.
  - specialize (Hlt eq_refl eq_refl). lia.
Qed.

(** The [while] loop of [heapify] exits: with [heapify_fuel] or more fuel
    the loop returns, and what it returns is [heapify]. *)
Lemma heapify_loop_enough fuel h :
  (MinHeap.heapify_fuel h <= fuel)%nat ->
  MinHeap.heapify_loop fuel h = Some (MinHeap.heapify h).
Proof.
  intros Hle.
  destruct (heapify_loop_exits (MinHeap.max_priority h) (MinHeap.heapify_fuel h) h)
    as [r Hr].
  - apply bounded_max_priority.
  - unfold MinHeap.heapify_fuel.
    pose proof (weight_nonneg _ 0 h (bounded_max_priority h)). lia.
  - unfold MinHeap.heapify. rewrite Hr. by eapply heapify_loop_mono.
Qed.

Lemma heapify_perm h : MinHeap.heapify h ≡ₚ h.
Proof. eapply heapify_loop_perm, (heapify_loop_enough _ h). done. Qed.

Lemma heapify_length h : length (MinHeap.heapify h) = length h.
Proof. by rewrite heapify_perm. Qed.

(** What [heapify] does establish.  A pass that ends with [solved] still
    set has swapped nothing, and has found every index [index < i] not
    above the nodes at [index*2] and [index*2+1]. *)
Lemma heapify_pass_solved i h s h' :
  (i <= length h / 2)%nat ->
  MinHeap.heapify_pass i h s = (h', true) ->
  h' = h /\ s = true
  /\ forall (index : nat) n c,
       (index < i)%nat -> h !! index = Some n ->
       h !! (index * 2)%nat = Some c \/ h !! (index * 2 + 1)%nat = Some c ->
       priority n <= priority c.
Proof.
  revert h s; induction i as [|i IH]; intros h s Hi Hpass.
  { simpl in Hpass. simplify_eq. split_and!; try done. intros; lia. }
  pose proof (heapify_pass_spec _ _ _ _ _ _ (bounded_max_priority h) Hpass)
    as (_ & _ & _ & Hs).
  destruct (Hs eq_refl) as [-> ->]. split_and!; try done.
  destruct (heapify_pass_reads_in_range h i Hi) as ([n Hn] & [l Hl] & [r Hr]).
  simpl in Hpass. rewrite Hn, Hl in Hpass.
  destruct (Z.gtb_spec (priority n) (priority l)) as [Hgt|Hle].
  { apply IH in Hpass as (_ & ? & _); [done|]. rewrite swap_length. lia. }
  rewrite Hr in Hpass.
  destruct (Z.gtb_spec (priority n) (priority r)) as [Hgt|Hle2].
  { apply IH in Hpass as (_ & ? & _); [done|]. rewrite swap_length. lia. }
  apply IH in Hpass as (_ & _ & Hlow); [|lia].
  intros index n' c Hlt Hindex Hc.
  destruct (decide (index = i)) as [->|Hne].
  - simplify_eq. by destruct Hc; simplify_eq.
  - apply (Hlow index n' c); [lia|done..].
Qed.

Lemma heapify_loop_solved fuel h r :
  MinHeap.heapify_loop fuel h = Some r ->
  MinHeap.heapify_pass (length r / 2) r true = (r, true).
Proof.
  revert h; induction fuel as [|fuel IH]; intros h Hr; simpl in Hr; [done|].
  destruct (MinHeap.heapify_pass (length h / 2) h true) as [h' s'] eqn:Hpass.
  destruct s'; [|by eapply IH]. simplify_eq.
  by destruct (heapify_pass_solved _ _ _ _ (Nat.le_refl _) Hpass) as (-> & _).
Qed.

(** The order that [heapify] leaves: every index below [size/2] is not
    above the nodes at [index*2] and [index*2+1].  These are not the
    children [index*2+1] and [index*2+2] of the 0-based layout that
    [getParent] uses: index 0 is compared with itself and with index 1, and
    the last node of a vector of odd size is compared with nothing. *)
Lemma heapify_orders_shifted_children h (index : nat) n c :
  (index < length (MinHeap.heapify h) / 2)%nat ->
  MinHeap.heapify h !! index = Some n ->
  MinHeap.heapify h !! (index * 2)%nat = Some c
  \/ MinHeap.heapify h !! (index * 2 + 1)%nat = Some c ->
  priority n <= priority c.
Proof.
  pose proof (heapify_loop_enough _ h (Nat.le_refl _)) as Hloop.
  apply heapify_loop_solved, heapify_pass_solved in Hloop as (_ & _ & Hord);
    [apply Hord|done].
Qed.

(** ** getParent and upHeap *)

Lemma getParent_root : MinHeap.getParent 0 = 0.
Proof. reflexivity. Qed.

(** For a positive index both branches of [getParent] are the usual
    [(index - 1) / 2]. *)
Lemma getParent_pos index :
  0 < index -> MinHeap.getParent index = (index - 1) / 2.
Proof.
  intros Hpos. unfold MinHeap.getParent.
  destruct (Z.eqb_spec (Z.rem index 2) 1);
    Z.to_euclidean_division_equations; lia.
Qed.

Lemma getParent_lt index :
  0 < index -> 0 <= MinHeap.getParent index < index.
Proof.
  intros Hpos. rewrite getParent_pos by done.
  Z.to_euclidean_division_equations; lia.
Qed.

Lemma upHeap_loop_perm fuel i h r :
  MinHeap.upHeap_loop fuel i h = Some r -> r ≡ₚ h.
Proof.
  revert i h; induction fuel as [|fuel IH]; intros i h Hr; simpl in Hr; [done|].
  destruct (h !! Z.to_nat i), (h !! Z.to_nat (MinHeap.getParent i));
    simplify_eq; try done.
  destruct (negb _ && _); simplify_eq; [|done].
  by rewrite (IH _ _ Hr), swap_perm.
Qed.

Lemma upHeap_loop_exits fuel i h :
  0 <= i < Z.of_nat fuel -> is_Some (MinHeap.upHeap_loop fuel i h).
Proof.
  revert i h; induction fuel as [|fuel IH]; intros i h Hi; [lia|]. simpl.
  destruct (h !! Z.to_nat i), (h !! Z.to_nat (MinHeap.getParent i)); try done.
  destruct (Z.eqb_spec (MinHeap.getParent i) i) as [Heq|Hne]; simpl; [done|].
  destruct (_ <? _); [|done].
  apply IH. assert (0 < i) by (destruct (decide (i = 0)) as [->|]; [done|lia]).
  pose proof (getParent_lt i). lia.
Qed.

(** The [while] loop of [upHeap] exits within [heap.size()] iterations on
    the non-empty vector that [insert] hands it. *)
Lemma upHeap_loop_enough h :
  h <> [] ->
  MinHeap.upHeap_loop (length h) (Z.of_nat (length h) - 1) h
  = Some (MinHeap.upHeap h).
Proof.
  intros Hne.
  destruct (upHeap_loop_exits (length h) (Z.of_nat (length h) - 1) h) as [r Hr].
  - destruct h; [done|]. simpl. lia.
  - unfold MinHeap.upHeap. by rewrite Hr.
Qed.

(** *** upHeap restores the 0-based heap order after a push_back *)

Lemma swap_lookup i j (k : nat) h a b :
  h !! i = Some a -> h !! j = Some b ->
  MinHeap.swap i j h !! k
  = if decide (k = i) then Some b else if decide (k = j) then Some a else h !! k.
Proof.
  intros Hi Hj. destruct (decide (k = i)) as [->|Hki].
  - by eapply swap_lookup_l.
  - destruct (decide (k = j)) as [->|Hkj].
    + by eapply swap_lookup_r.
    + by apply swap_lookup_other.
Qed.

Lemma min_heap_invariant_parent h :
  min_heap_invariant h
  <-> (forall (j : nat) n m, (0 < j)%nat ->
         h !! j = Some n -> h !! ((j - 1) / 2)%nat = Some m ->
         priority m <= priority n).
Proof.
  unfold min_heap_invariant. split.
  - intros Hinv j n m Hj Hn Hm. apply (Hinv _ _ _ Hm).
    assert (j = 2 * ((j - 1) / 2) + 1 \/ j = 2 * ((j - 1) / 2) + 2)%nat
      as [<-|<-] by div_lia; auto.
  - intros Hpar i n c Hn [Hc|Hc].
    + apply (Hpar (2 * i + 1)%nat _ _ ltac:(lia) Hc).
      by replace ((2 * i + 1 - 1) / 2)%nat with i by div_lia.
    + apply (Hpar (2 * i + 2)%nat _ _ ltac:(lia) Hc).
      by replace ((2 * i + 2 - 1) / 2)%nat with i by div_lia.
Qed.

Lemma getParent_nat (i : nat) :
  (0 < i)%nat ->
  MinHeap.getParent (Z.of_nat i) = Z.of_nat ((i - 1) / 2)
  /\ ((i - 1) / 2 < i)%nat.
Proof. intros Hi. rewrite getParent_pos by lia. split; div_lia. Qed.

Lemma upHeap_loop_orders fuel (i : nat) h r :
  parent_ordered_except i h -> grandparent_ordered i h ->
  MinHeap.upHeap_loop fuel (Z.of_nat i) h = Some r ->
  min_heap_invariant r.
Proof.
  revert i h; induction fuel as [|fuel IH]; intros i h Hord Hgrand Hr;
    simpl in Hr; [done|].
  rewrite Nat2Z.id in Hr.
  assert (forall n, h !! i = Some n ->
            (i = 0%nat \/ exists m, h !! ((i - 1) / 2)%nat = Some m
                                   /\ priority m <= priority n) ->
            min_heap_invariant h) as Hdone.
  { intros n Hn Hi. apply min_heap_invariant_parent. intros j n' m Hj Hn' Hm.
    destruct (decide (j = i)) as [->|Hne]; [|by eapply Hord].
    destruct Hi as [->|(m' & Hm' & Hle)]; [lia|]. by simplify_eq. }
  destruct (h !! i) as [n|] eqn:Hn.
  2:{ simplify_eq. apply min_heap_invariant_parent. intros j n' m Hj Hn' Hm.
      eapply Hord; try done. intros ->. by simplify_eq. }
  destruct (decide (i = 0%nat)) as [->|Hpos].
  { change (MinHeap.getParent (Z.of_nat 0)) with 0 in Hr.
    change (Z.to_nat 0) with 0%nat in Hr. rewrite Hn in Hr.
    simpl in Hr. simplify_eq. eapply Hdone; eauto. }
  destruct (getParent_nat i) as [Hpar Hlt]; [lia|].
  rewrite Hpar, Nat2Z.id in Hr.
  destruct (h !! ((i - 1) / 2)%nat) as [m|] eqn:Hm.
  2:{ simplify_eq. apply min_heap_invariant_parent. intros j n' m Hj Hn' Hm'.
      destruct (decide (j = i)) as [->|Hne]; [by simplify_eq|by eapply Hord]. }
  destruct (Z.eqb_spec (Z.of_nat ((i - 1) / 2)) (Z.of_nat i)) as [Heq|_]; [lia|].
  simpl in Hr.
  destruct (Z.ltb_spec (priority n) (priority m)) as [Hless|Hge]; simplify_eq.
  2:{ eapply Hdone; [done|]. right. by exists m. }
  apply IH in Hr; [done|..].
  - intros j a b Hj Hjp. rewrite !(swap_lookup _ _ _ _ _ _ Hn Hm). intros Ha Hb.
    destruct (decide (j = i)) as [Hji|Hji].
    { rewrite decide_False in Hb by div_lia.
      rewrite decide_True in Hb by (by rewrite Hji).
      injection Ha as <-. injection Hb as <-. lia. }
    rewrite decide_False in Ha by done.
    destruct (decide ((j - 1) / 2 = i)%nat) as [Hpj|Hpj].
    { injection Hb as <-. by eapply (Hgrand j a m); [lia|..]. }
    destruct (decide ((j - 1) / 2 = (i - 1) / 2)%nat) as [Hpp|Hpp].
    { injection Hb as <-.
      assert (priority m <= priority a)
        by (eapply (Hord j a m); try done; by rewrite Hpp).
      lia. }
    by eapply (Hord j a b).
  - intros c a b Hp Hc Hcp. rewrite !(swap_lookup _ _ _ _ _ _ Hn Hm).
    rewrite (decide_False (P := (((i - 1) / 2 - 1) / 2 = i)%nat)) by div_lia.
    rewrite (decide_False (P := (((i - 1) / 2 - 1) / 2 = (i - 1) / 2)%nat))
      by div_lia.
    intros Ha Hb.
    assert (priority b <= priority m)
      by (eapply (Hord ((i - 1) / 2)%nat m b); try done; lia).
    destruct (decide (c = i)) as [Hci|Hci]; [injection Ha as <-; lia|].
    rewrite decide_False in Ha by div_lia.
    assert (priority m <= priority a)
      by (eapply (Hord c a m); try done; by rewrite Hcp).
    lia.
Qed.

(** [upHeap] after [push_back]: if the vector was heap-ordered before the
    push, it is heap-ordered again when [upHeap] returns. *)
Lemma upHeap_restores_order h n :
  min_heap_invariant h -> min_heap_invariant (MinHeap.upHeap (h ++ [n])).
Proof.
  intros Hinv.
  pose proof (upHeap_loop_enough (h ++ [n])) as Hloop.
  rewrite length_app in Hloop. simpl in Hloop.
  replace (Z.of_nat (length h + 1) - 1) with (Z.of_nat (length h)) in Hloop by lia.
  eapply (upHeap_loop_orders _ (length h)); [..|apply Hloop; by destruct h].
  - intros j a b Hj Hne Ha Hb.
    assert (j < length h)%nat.
    { apply lookup_lt_Some in Ha. rewrite length_app in Ha. simpl in Ha. lia. }
    rewrite lookup_app_l in Ha by done.
    rewrite lookup_app_l in Hb by div_lia.
    by eapply (proj1 (min_heap_invariant_parent h) Hinv j a b).
  - intros c a b Hi Hc Hcp Ha _.
    apply lookup_lt_Some in Ha. rewrite length_app in Ha. simpl in Ha. div_lia.
Qed.

Lemma upHeap_perm h : MinHeap.upHeap h ≡ₚ h.
Proof.
  unfold MinHeap.upHeap.
  destruct (MinHeap.upHeap_loop _ _ _) as [r|] eqn:Hr; [|done].
  by eapply upHeap_loop_perm.
Qed.

Lemma upHeap_length h : length (MinHeap.upHeap h) = length h.
Proof. by rewrite upHeap_perm. Qed.

End MinHeapFacts.

(** * Properties of the queue *)

Section PriorityQueueFacts.
Context {E : Type} `{EqDecision E}.
Context (E_default : E).
Implicit Types (heap h : list (HeapNode E)) (n : HeapNode E).
Implicit Types (q : PriorityQueue E).

(** ** The loops that copy the vector *)

Lemma fold_left_push {A B} (f : A -> B) (l : list A) (acc : list B) :
  fold_left (fun out x => out ++ [f x]) l acc = acc ++ map f l.
Proof.
  revert acc; induction l as [|x l IH]; intros acc; simpl.
  - by rewrite app_nil_r.
  - by rewrite IH, <- app_assoc.
Qed.

Lemma get_all_elements_map q : get_all_elements q = map value (minHeap q).
Proof. unfold get_all_elements. by rewrite fold_left_push. Qed.

Lemma get_all_priorities_map q : get_all_priorities q = map priority (minHeap q).
Proof. unfold get_all_priorities. by rewrite fold_left_push. Qed.

Lemma push_all_app (newValues : list (Z * E)) h :
  MinHeap.push_all newValues h
  = h ++ map (fun pe => Build_HeapNode pe.1 pe.2) newValues.
Proof. unfold MinHeap.push_all. by rewrite fold_left_push. Qed.

(** ** Sizes *)

Lemma MinHeap_insert_length p e h :
  0 <= p -> length (MinHeap.insert p e h) = S (length h).
Proof.
  intros Hp. unfold MinHeap.insert.
  destruct (Z.geb_spec p 0); [|lia].
  rewrite upHeap_length, length_app. simpl. lia.
Qed.

Lemma MinHeap_insertAll_length (newValues : list (Z * E)) h :
  length (MinHeap.insertAll newValues h) = (length h + length newValues)%nat.
Proof.
  unfold MinHeap.insertAll.
  by rewrite heapify_length, push_all_app, length_app, length_map.
Qed.

Lemma MinHeap_removeFront_length h :
  length (MinHeap.removeFront h) = (length h - 1)%nat.
Proof.
  unfold MinHeap.removeFront, MinHeap.pop_back.
  rewrite heapify_length, length_take, !swap_length. lia.
Qed.

Lemma MinHeap_changePriority_length e p h :
  length (MinHeap.changePriority e p h) = length h.
Proof.
  unfold MinHeap.changePriority.
  destruct (negb _); [|done].
  by rewrite heapify_length, length_alter.
Qed.

(** ** insert keeps the heap order *)

(** [insert] goes through [upHeap], which follows the parents
    [(i-1)/2]: it preserves the 0-based min-heap invariant. *)
Lemma insert_preserves_min_heap_invariant q p (e : E) :
  min_heap_invariant (minHeap q) -> min_heap_invariant (minHeap (insert p e q)).
Proof.
  intros Hinv. unfold insert, MinHeap.insert. simpl.
  destruct (p >=? 0); [|done]. by apply upHeap_restores_order.
Qed.

(** ** The linear scans *)

Lemma findFirst_from_spec i e h :
  0 <= i ->
  (MinHeap.findFirst_from i e h = -1 /\ Forall (fun n => value n <> e) h)
  \/ (exists (k : nat) n,
        MinHeap.findFirst_from i e h = i + Z.of_nat k
        /\ h !! k = Some n /\ value n = e
        /\ Forall (fun m => value m <> e) (take k h)).
Proof.
  revert i; induction h as [|m h IH]; intros i Hi; simpl.
  - left. by split.
  - destruct (decide (value m = e)) as [Heq|Hne].
    + right. exists 0%nat, m. split_and!; try done. lia.
    + destruct (IH (i + 1)) as [[Hnone Hall]|(k & n & Hk & Hl & Hv & Hall)]; [lia|..].
      * left. split; [done|]. by constructor.
      * right. exists (S k), n. split_and!; try done; [lia|].
        simpl. by constructor.
Qed.

Lemma contains_from_spec e h :
  contains_from e h = true <-> exists n, n ∈ h /\ value n = e.
Proof.
  induction h as [|m h IH]; simpl.
  - split; [done|]. intros (n & Hn & _). by apply elem_of_nil in Hn.
  - destruct (decide (value m = e)) as [Heq|Hne].
    + split; [|done]. intros _. exists m. split; [left|done].
    + rewrite IH. split.
      * intros (n & Hn & Hv). exists n. split; [by right|done].
      * intros (n & Hn & Hv). apply elem_of_cons in Hn as [->|Hn]; [done|].
        by exists n.
Qed.

(** [get_priority] keeps the first priority that is not [-1]: as long as
    [lowest] is [-1] a matching node overwrites it, afterwards nothing
    does. *)
Lemma get_priority_from_spec e h lowest :
  get_priority_from e h lowest
  = if lowest =? -1 then first_found_priority_not_sentinel e h else lowest.
Proof.
  unfold first_found_priority_not_sentinel.
  revert lowest; induction h as [|m h IH]; intros lowest; simpl.
  - by destruct (Z.eqb_spec lowest (-1)).
  - destruct (decide (value m = e)) as [Heq|Hne].
    + destruct (Z.eqb_spec lowest (-1)) as [->|Hl].
      * rewrite IH. destruct (Z.eqb_spec (priority m) (-1)) as [Hm|Hm].
        -- rewrite decide_False by (intros [_ ?]; done).
           by destruct (list_find _ h) as [[? ?]|].
        -- by rewrite decide_True.
      * destruct (priority m <? lowest); rewrite IH;
          by destruct (Z.eqb_spec lowest (-1)).
    + rewrite IH. rewrite decide_False by (intros [? _]; done).
      destruct (Z.eqb_spec lowest (-1)); [|done].
      by destruct (list_find _ h) as [[? ?]|].
Qed.

Lemma get_priority_from_filter e h lowest :
  get_priority_from e h lowest
  = get_priority_from e (filter (fun n => value n = e) h) lowest.
Proof.
  revert lowest; induction h as [|m h IH]; intros lowest; [done|].
  rewrite filter_cons. simpl.
  destruct (decide (value m = e)) as [Heq|Hne]; [|apply IH].
  simpl. rewrite decide_True by done.
  destruct (lowest =? -1); [apply IH|].
  destruct (priority m <? lowest); apply IH.
Qed.

Lemma filter_alter_once (P : HeapNode E -> Prop) `{!forall n, Decision (P n)}
    (f : HeapNode E -> HeapNode E) k h n :
  length (filter P h) = 1%nat -> h !! k = Some n -> P n -> P (f n) ->
  filter P (alter f k h) = [f n].
Proof.
  revert k; induction h as [|m h IH]; intros [|k] Hlen Hk Hn Hfn;
    simplify_eq/=.
  - rewrite filter_cons_True in Hlen by done.
    rewrite filter_cons_True by done.
    f_equal. apply nil_length_inv. simpl in Hlen. lia.
  - destruct (decide (P m)) as [Hm|Hm].
    + rewrite filter_cons_True in Hlen by done. simpl in Hlen.
      assert (n ∈ filter P h) as Hin
        by (apply list_elem_of_filter; split; [done|]; by eapply list_elem_of_lookup_2).
      assert (filter P h = []) as Hnil by (apply nil_length_inv; lia).
      rewrite Hnil in Hin. by apply elem_of_nil in Hin.
    + rewrite filter_cons_False in Hlen by done.
      rewrite filter_cons_False by done. by apply IH.
Qed.

End PriorityQueueFacts.

(** * The claims of the specification *)

Section Claims.
Context {E : Type} `{EqDecision E}.
Context (E_default : E).
Implicit Types (q : PriorityQueue E) (v : E) (p : Z).

Lemma reachable_insert q p v :
  reachable E_default q -> reachable E_default (insert p v q).
Proof. intros Hq. by eapply (reachable_run E_default (Insert p v) q). Qed.

Lemma reachable_insert_all q (items : list (Z * E)) :
  reachable E_default q -> reachable E_default (insert_all items q).
Proof. intros Hq. by eapply (reachable_run E_default (InsertAll items) q). Qed.

Lemma reachable_remove_front q :
  reachable E_default q -> reachable E_default (remove_front E_default q).2.
Proof.
  intros Hq.
  apply (reachable_run E_default RemoveFront q
           (RElement (remove_front E_default q).1) _ Hq).
  simpl. by destruct (remove_front E_default q).
Qed.

Lemma reachable_change_priority q v p :
  reachable E_default q -> reachable E_default (change_priority v p q).
Proof.
  intros Hq. by eapply (reachable_run E_default (ChangePriority v p) q).
Qed.

(** C4.  Five values [v1 .. v5] inserted with the priorities
    [5, 1, 3, 2, 4], in that order, by five [insert] calls or by one
    [insert_all] call on an empty queue: five successive [remove_front()]
    calls return them in ascending order of priority, that is [v2] (1),
    [v4] (2), [v3] (3), [v5] (4), [v1] (5).  The values need not even be
    distinct. *)
Theorem C4_drain_in_priority_order (v1 v2 v3 v4 v5 : E) :
  (drain E_default 5
     (insert 4 v5 (insert 2 v4 (insert 3 v3 (insert 1 v2 (insert 5 v1 new)))))).1
  = [v2; v4; v3; v5; v1]
  /\ (drain E_default 5
        (insert_all [(5, v1); (1, v2); (3, v3); (2, v4); (4, v5)] new)).1
     = [v2; v4; v3; v5; v1].
Proof. split; vm_compute; reflexivity. Qed.

(** C5.  [insert(p, v)] with [p < 0] is a silent no-op: the call returns
    nothing (there is no error channel) and the queue is the one it was
    given, so [size()], [get_all_elements()], [get_all_priorities()] and the
    stored sequence are unchanged.  This holds for every queue, reachable
    or not. *)
Theorem C5_insert_negative_is_noop q p v :
  p < 0 ->
  run E_default (Insert p v) q = Some (RVoid, q)
  /\ size (insert p v q) = size q
  /\ get_all_elements (insert p v q) = get_all_elements q
  /\ get_all_priorities (insert p v q) = get_all_priorities q
  /\ minHeap (insert p v q) = minHeap q.
Proof.
  intros Hp.
  assert (insert p v q = q) as Heq.
  { destruct q as [h]. unfold insert, MinHeap.insert. simpl.
    destruct (Z.geb_spec p 0); [lia|done]. }
  unfold run. by rewrite Heq.
Qed.

(** C6, as amended.  [size()] grows by exactly 1 after an [insert] with a
    non-negative priority, grows by exactly [k] after [insert_all] of [k]
    pairs (whatever
    their priorities, negative ones included), shrinks by exactly 1 after
    [remove_front] on a non-empty queue, and is unchanged by
    [change_priority], [contains] and [get_priority], and by [peek] on a
    non-empty queue.  On an empty queue [peek] has no defined behaviour
    (it reads [heap[0]] of an empty vector), so there is no size after
    it. *)
Theorem C6_size_changes q :
  (forall p v, 0 <= p -> size (insert p v q) = S (size q))
  /\ (forall items : list (Z * E),
        size (insert_all items q) = (size q + length items)%nat)
  /\ (empty q = false -> S (size (remove_front E_default q).2) = size q)
  /\ (forall v p, size (change_priority v p q) = size q)
  /\ (empty q = false -> size_after E_default Peek q = Some (size q))
  /\ (empty q = true -> size_after E_default Peek q = None)
  /\ (forall v, size_after E_default (Contains v) q = Some (size q))
  /\ (forall v, size_after E_default (GetPriority v) q = Some (size q)).
Proof.
  split_and!; try done.
  - intros p v Hp. by apply MinHeap_insert_length.
  - intros items. apply MinHeap_insertAll_length.
  - unfold remove_front, empty, size, MinHeap.getSize, MinHeap.getMin.
    destruct q as [[|n h]]; simpl; [done|]. intros _.
    rewrite MinHeap_removeFront_length. simpl. lia.
  - intros v p. apply MinHeap_changePriority_length.
  - by destruct q as [[|n h]].
  - by destruct q as [[|n h]].
Qed.

(** C7.  On an empty queue [remove_front()] returns [E()] and leaves the
    queue as it was: [size()] is still 0 and [empty()] still true. *)
Theorem C7_remove_front_on_empty q :
  empty q = true ->
  remove_front E_default q = (E_default, q)
  /\ run E_default RemoveFront q = Some (RElement E_default, q)
  /\ size (remove_front E_default q).2 = 0%nat
  /\ empty (remove_front E_default q).2 = true.
Proof.
  intros Hempty.
  assert (remove_front E_default q = (E_default, q)) as Heq
    by (unfold remove_front; by rewrite Hempty).
  unfold run. rewrite Heq. simpl. split_and!; try done.
  unfold empty in Hempty. unfold size. by apply Nat.eqb_eq in Hempty.
Qed.

Lemma list_find_and_l (P Q : HeapNode E -> Prop)
    `{!forall n, Decision (P n)} `{!forall n, Decision (Q n)} (h : list (HeapNode E)) :
  (forall n, n ∈ h -> P n -> Q n) ->
  list_find (fun n => P n /\ Q n) h = list_find P h.
Proof.
  induction h as [|m h IH]; intros Hall; [done|]. simpl.
  destruct (decide (P m)) as [Hm|Hm].
  - rewrite decide_True; [done|]. split; [done|]. apply Hall; [left|done].
  - rewrite decide_False by (intros [? _]; done).
    rewrite IH; [done|]. intros n Hn. apply Hall. by right.
Qed.

(** Where the scan of [get_priority] gives the first-found priority: when
    no stored node with value [v] carries the priority [-1], also among
    several nodes with value [v] and different priorities; and it gives
    [-1] when no stored node has value [v]. *)
Lemma get_priority_first_found q v :
  ((forall n, n ∈ minHeap q -> value n = v -> priority n <> -1) ->
   get_priority v q = first_found_priority v (minHeap q))
  /\ ((forall n, n ∈ minHeap q -> value n <> v) -> get_priority v q = -1).
Proof.
  assert (get_priority v q = first_found_priority_not_sentinel v (minHeap q))
    as Heq by (unfold get_priority; by rewrite get_priority_from_spec).
  split.
  - intros Hall. rewrite Heq.
    unfold first_found_priority_not_sentinel, first_found_priority.
    by rewrite (list_find_and_l _ _ _ Hall).
  - intros Hall. rewrite Heq. unfold first_found_priority_not_sentinel.
    destruct (list_find _ _) as [[i n]|] eqn:Hfind; [|done].
    apply list_find_Some in Hfind as (Hi & [Hv _] & _).
    exfalso. eapply Hall; [|done]. by eapply list_elem_of_lookup_2.
Qed.

(** C9.  [get_all_elements()] and [get_all_priorities()] both have
    [size()] entries, taken in heap index order: entry [i] of the one is
    the value, and entry [i] of the other the priority, of the node stored
    at index [i]. *)
Theorem C9_parallel_sequences q :
  length (get_all_elements q) = size q
  /\ length (get_all_priorities q) = size q
  /\ (forall i : nat, (i < size q)%nat ->
        exists n, minHeap q !! i = Some n
                  /\ get_all_elements q !! i = Some (value n)
                  /\ get_all_priorities q !! i = Some (priority n)).
Proof.
  rewrite get_all_elements_map, get_all_priorities_map.
  unfold size, MinHeap.getSize. rewrite !length_map. split_and!; try done.
  intros i Hi. destruct (lookup_lt_is_Some_2 _ _ Hi) as [n Hn].
  exists n. by rewrite !list_lookup_fmap, Hn.
Qed.


End Claims.

(** * The claims on concrete queues *)

Ltac elem_cases H :=
  repeat (apply elem_of_cons in H as [->|H]); [..|by apply elem_of_nil in H].

Lemma queue_wxyz_reachable : reachable "" queue_wxyz.
Proof. repeat apply reachable_insert. apply reachable_new. Qed.

Lemma queue_bca_reachable : reachable "" queue_bca.
Proof. repeat apply reachable_insert. apply reachable_new. Qed.


Lemma queue_sentinel_reachable : reachable "" queue_sentinel.
Proof. apply reachable_insert_all, reachable_new. Qed.


Lemma queue_wxyz_heap :
  minHeap queue_wxyz
  = [Build_HeapNode 1 "w"; Build_HeapNode 3 "x"; Build_HeapNode 2 "y";
     Build_HeapNode 4 "z"].
Proof. vm_compute. reflexivity. Qed.

Lemma queue_wxyz_remove_front :
  remove_front "" queue_wxyz
  = ("w", {| minHeap := [Build_HeapNode 3 "x"; Build_HeapNode 4 "z";
                          Build_HeapNode 2 "y"] |}).
Proof. vm_compute. reflexivity. Qed.

Lemma queue_bca_heap :
  minHeap queue_bca
  = [Build_HeapNode 1 "b"; Build_HeapNode 2 "c"; Build_HeapNode 3 "a"].
Proof. vm_compute. reflexivity. Qed.

Lemma queue_bca_change_priority :
  minHeap (change_priority "a" 0 queue_bca)
  = [Build_HeapNode 1 "b"; Build_HeapNode 2 "c"; Build_HeapNode 0 "a"].
Proof. vm_compute. reflexivity. Qed.

(** C1, on the code.  The queue built by [insert(1,"w")], [insert(3,"x")],
    [insert(2,"y")], [insert(4,"z")] stores the priorities [1, 3, 2, 4].
    [remove_front()] then leaves [3, 4, 2]: [heapify] compares index 0 with
    indices 0 and 1 only, so the node at index 2 is never looked at and the
    root (3) stays above its child at index [2*0+2] (2).  [change_priority]
    and [insert_all] break the invariant in the same way, through the same
    [heapify]. *)
Theorem C1_heap_invariant_broken_by_heapify :
  (reachable "" (remove_front "" queue_wxyz).2
   /\ get_all_priorities (remove_front "" queue_wxyz).2 = [3; 4; 2]
   /\ ~ min_heap_invariant (minHeap (remove_front "" queue_wxyz).2))
  /\ (reachable "" (change_priority "a" 0 queue_bca)
      /\ get_all_priorities (change_priority "a" 0 queue_bca) = [1; 2; 0]
      /\ ~ min_heap_invariant (minHeap (change_priority "a" 0 queue_bca)))
  /\ (reachable "" (insert_all [(1, "b"); (2, "c"); (0, "a")] new)
      /\ get_all_priorities (insert_all [(1, "b"); (2, "c"); (0, "a")] new)
         = [1; 2; 0]
      /\ ~ min_heap_invariant
           (minHeap (insert_all [(1, "b"); (2, "c"); (0, "a")] new))).
Proof.
  split_and!.
  - apply reachable_remove_front, queue_wxyz_reachable.
  - by rewrite queue_wxyz_remove_front.
  - rewrite queue_wxyz_remove_front. simpl. intros Hinv.
    specialize (Hinv 0%nat (Build_HeapNode 3 "x") (Build_HeapNode 2 "y")
                  eq_refl (or_intror eq_refl)).
    simpl in Hinv. lia.
  - apply reachable_change_priority, queue_bca_reachable.
  - rewrite get_all_priorities_map. by rewrite queue_bca_change_priority.
  - rewrite queue_bca_change_priority. intros Hinv.
    specialize (Hinv 0%nat (Build_HeapNode 1 "b") (Build_HeapNode 0 "a")
                  eq_refl (or_intror eq_refl)).
    simpl in Hinv. lia.
  - apply reachable_insert_all, reachable_new.
  - vm_compute. reflexivity.
  - assert (minHeap (insert_all [(1, "b"); (2, "c"); (0, "a")] new)
            = [Build_HeapNode 1 "b"; Build_HeapNode 2 "c"; Build_HeapNode 0 "a"])
      as -> by (vm_compute; reflexivity).
    intros Hinv.
    specialize (Hinv 0%nat (Build_HeapNode 1 "b") (Build_HeapNode 0 "a")
                  eq_refl (or_intror eq_refl)).
    simpl in Hinv. lia.
Qed.

(** C2, on the code.  After [remove_front()] on the queue of C1 the stored
    nodes are [(3,"x")], [(4,"z")], [(2,"y")].  [peek()] returns ["x"], the
    root, whose only node has priority 3, while the smallest stored priority
    is 2 (the node ["y"] at index 2). *)
Theorem C2_peek_is_not_the_minimum :
  reachable "" (remove_front "" queue_wxyz).2
  /\ peek (remove_front "" queue_wxyz).2 = Some "x"
  /\ (forall n, n ∈ minHeap (remove_front "" queue_wxyz).2 ->
        value n = "x" -> priority n = 3)
  /\ minimum_priority 2 (minHeap (remove_front "" queue_wxyz).2).
Proof.
  split; [apply reachable_remove_front, queue_wxyz_reachable|].
  rewrite queue_wxyz_remove_front. simpl. split_and!.
  - reflexivity.
  - intros n Hn Hv. elem_cases Hn; simpl in *; done.
  - split.
    + exists (Build_HeapNode 2 "y"). split; [|done].
      do 2 right. left.
    + intros n Hn. elem_cases Hn; simpl; lia.
Qed.

(** C3, on the code.  The queue built by [insert(1,"b")], [insert(2,"c")],
    [insert(3,"a")] stores ["a"] once, with priority 3, at index 2, and no
    other priority is 0 or less.  After [change_priority("a", 0)] the node
    ["a"] is still at index 2 ([heapify] on three nodes reads indices 0 and 1
    only), and the next [remove_front()] returns ["b"]. *)
Theorem C3_change_priority_not_served_next :
  reachable "" queue_bca
  /\ minHeap queue_bca
     = [Build_HeapNode 1 "b"; Build_HeapNode 2 "c"; Build_HeapNode 3 "a"]
  /\ get_priority "a" queue_bca = 3
  /\ minHeap (change_priority "a" 0 queue_bca)
     = [Build_HeapNode 1 "b"; Build_HeapNode 2 "c"; Build_HeapNode 0 "a"]
  /\ (remove_front "" (change_priority "a" 0 queue_bca)).1 = "b".
Proof.
  split_and!.
  - apply queue_bca_reachable.
  - apply queue_bca_heap.
  - vm_compute. reflexivity.
  - apply queue_bca_change_priority.
  - vm_compute. reflexivity.
Qed.

(** C5 at a concrete call: [insert(-1, "z")] on the queue ["b","c","a"]. *)
Lemma C5_insert_negative_is_noop_witness :
  -1 < 0
  /\ run "" (Insert (-1) "z") queue_bca = Some (RVoid, queue_bca)
  /\ size (insert (-1) "z" queue_bca) = size queue_bca
  /\ get_all_elements (insert (-1) "z" queue_bca) = get_all_elements queue_bca
  /\ get_all_priorities (insert (-1) "z" queue_bca) = get_all_priorities queue_bca
  /\ minHeap (insert (-1) "z" queue_bca) = minHeap queue_bca.
Proof.
  split; [lia|]. apply (C5_insert_negative_is_noop "" queue_bca (-1) "z"). lia.
Defined.

(** C6 as the specification states it fails on the new queue, which is
    reachable and empty: [peek()] evaluates [heap[0]] on an empty vector,
    so the call has no defined behaviour and there is no [size()] after
    it to compare with the size before. *)
Lemma C6_peek_on_empty_counterexample :
  reachable "" (new (E:=string))
  /\ empty (new (E:=string)) = true
  /\ peek (new (E:=string)) = None
  /\ run "" Peek new = None
  /\ size_after "" Peek new <> Some (size (new (E:=string))).
Proof.
  split_and!; try reflexivity; [apply reachable_new|discriminate].
Qed.

(** C6, as amended, at concrete calls on the queue ["b","c","a"], and
    [peek] on the new queue. *)
Lemma C6_size_changes_witness :
  0 <= 7 /\ empty queue_bca = false /\ empty (new (E:=string)) = true
  /\ size (insert 7 "z" queue_bca) = S (size queue_bca)
  /\ size (insert_all [(-4, "u"); (9, "v")] queue_bca) = (size queue_bca + 2)%nat
  /\ S (size (remove_front "" queue_bca).2) = size queue_bca
  /\ size (change_priority "a" 0 queue_bca) = size queue_bca
  /\ size_after "" Peek queue_bca = Some (size queue_bca)
  /\ size_after "" Peek (new (E:=string)) = None.
Proof.
  destruct (C6_size_changes "" queue_bca)
    as (Hins & Hall & Hrem & Hchg & Hpeek & _).
  destruct (C6_size_changes "" (new (E:=string)))
    as (_ & _ & _ & _ & _ & Hundef & _).
  split_and!.
  - lia.
  - reflexivity.
  - reflexivity.
  - apply Hins. lia.
  - apply (Hall [(-4, "u"); (9, "v")]).
  - apply Hrem. reflexivity.
  - apply Hchg.
  - apply Hpeek. reflexivity.
  - apply Hundef. reflexivity.
Defined.

(** C7 on the freshly constructed queue. *)
Lemma C7_remove_front_on_empty_witness :
  empty (new (E:=string)) = true
  /\ remove_front "" new = ("", new)
  /\ run "" RemoveFront new = Some (RElement "", new)
  /\ size (remove_front "" new).2 = 0%nat
  /\ empty (remove_front "" new).2 = true.
Proof.
  split; [reflexivity|]. apply (C7_remove_front_on_empty "" new). reflexivity.
Defined.

(** C8, on the code.  After [insert_all({(-1,"a"), (5,"a")})] the vector
    is [(-1,"a"), (5,"a")].  The first-found node with value ["a"] has
    priority [-1], which is also the lowest priority stored for ["a"];
    [get_priority("a")] returns 5: the first match sets [lowest] to [-1],
    the test [lowest == -1] then takes that for "nothing found yet", and
    the second match overwrites it. *)
Theorem C8_get_priority_misses_first_found :
  reachable "" queue_sentinel
  /\ minHeap queue_sentinel = [Build_HeapNode (-1) "a"; Build_HeapNode 5 "a"]
  /\ first_found_priority "a" (minHeap queue_sentinel) = -1
  /\ (forall n, n ∈ minHeap queue_sentinel -> value n = "a" -> -1 <= priority n)
  /\ get_priority "a" queue_sentinel = 5
  /\ get_priority "a" queue_sentinel
     <> first_found_priority "a" (minHeap queue_sentinel).
Proof.
  assert (minHeap queue_sentinel
          = [Build_HeapNode (-1) "a"; Build_HeapNode 5 "a"]) as Hheap
    by (vm_compute; reflexivity).
  split; [apply queue_sentinel_reachable|].
  split_and!; try (vm_compute; reflexivity).
  - rewrite Hheap. intros n Hn _. elem_cases Hn; simpl; lia.
  - vm_compute. discriminate.
Qed.

(** C9 at index 2 of the queue ["b","c","a"]. *)
Lemma C9_parallel_sequences_witness :
  (2 < size queue_bca)%nat
  /\ exists n, minHeap queue_bca !! 2%nat = Some n
               /\ get_all_elements queue_bca !! 2%nat = Some (value n)
               /\ get_all_priorities queue_bca !! 2%nat = Some (priority n).
Proof.
  assert (2 < size queue_bca)%nat as Hlt by (vm_compute; lia).
  split; [exact Hlt|].
  destruct (C9_parallel_sequences queue_bca) as (_ & _ & Hi).
  exact (Hi 2%nat Hlt).
Defined.



(** * Further properties of the heap primitives *)

(** X1.  [getParent] is the usual parent of the 0-based layout: for a
    positive index both parity branches give [(index - 1) / 2], which lies
    strictly below the index; the root is its own parent (C++ division
    truncates [(0 - 1) / 2] to 0); and the parent of [2*index+1] and of
    [2*index+2] is [index]. *)
Theorem X1_getParent_is_floor_half (index : Z) :
  0 <= index ->
  (0 < index ->
   MinHeap.getParent index = (index - 1) / 2
   /\ 0 <= MinHeap.getParent index < index)
  /\ MinHeap.getParent 0 = 0
  /\ MinHeap.getParent (2 * index + 1) = index
  /\ MinHeap.getParent (2 * index + 2) = index.
Proof.
  intros Hi. split_and!.
  - intros Hpos. split; [by apply getParent_pos|by apply getParent_lt].
  - reflexivity.
  - rewrite getParent_pos by lia. Z.to_euclidean_division_equations; lia.
  - rewrite getParent_pos by lia. Z.to_euclidean_division_equations; lia.
Qed.

Lemma X1_getParent_is_floor_half_witness :
  0 <= 5
  /\ MinHeap.getParent 5 = (5 - 1) / 2
  /\ MinHeap.getParent (2 * 5 + 1) = 5
  /\ MinHeap.getParent (2 * 5 + 2) = 5.
Proof.
  destruct (X1_getParent_is_floor_half 5 ltac:(lia)) as (Hpos & _ & Hl & Hr).
  destruct (Hpos ltac:(lia)) as [Hp _].
  split_and!; [lia|exact Hp|exact Hl|exact Hr].
Defined.

Section HeapPrimitives.
Context {E : Type} `{EqDecision E}.
Implicit Types (h r : list (HeapNode E)) (n : HeapNode E).

(** X2.  [swap] on two indices in range exchanges the two nodes, leaves
    every other index and the size alone, and undoes itself when applied
    twice. *)
Theorem X2_swap_exchanges_two_nodes (i j : nat) h a b :
  h !! i = Some a -> h !! j = Some b ->
  MinHeap.swap i j h !! i = Some b
  /\ MinHeap.swap i j h !! j = Some a
  /\ (forall k : nat, k <> i -> k <> j -> MinHeap.swap i j h !! k = h !! k)
  /\ length (MinHeap.swap i j h) = length h
  /\ MinHeap.swap i j (MinHeap.swap i j h) = h.
Proof.
  intros Hi Hj.
  pose proof (swap_lookup_l _ _ _ _ _ Hi Hj) as Hi'.
  pose proof (swap_lookup_r _ _ _ _ _ Hi Hj) as Hj'.
  split_and!; try done.
  - intros k Hki Hkj. by apply swap_lookup_other.
  - apply swap_length.
  - apply list_eq. intros k.
    rewrite (swap_lookup _ _ k _ _ _ Hi' Hj').
    destruct (decide (k = i)) as [->|Hki]; [done|].
    destruct (decide (k = j)) as [->|Hkj]; [done|].
    by apply swap_lookup_other.
Qed.

Lemma heapify_loop_S fuel h :
  MinHeap.heapify_loop (S fuel) h
  = let '(h', solved) := MinHeap.heapify_pass (length h / 2) h true in
    if solved then Some h' else MinHeap.heapify_loop fuel h'.
Proof. reflexivity. Qed.

(** X3.  [heapify] never reads outside the vector, and its [while] loop
    exits: within [heapify_fuel] passes the loop returns, more fuel gives
    the same vector, and that vector is [heapify]. *)
Theorem X3_heapify_loop_exits h :
  (forall index : nat,
      (S index <= length h / 2)%nat ->
      is_Some (h !! index) /\ is_Some (h !! (index * 2)%nat)
      /\ is_Some (h !! (index * 2 + 1)%nat))
  /\ exists r,
      MinHeap.heapify_loop (MinHeap.heapify_fuel h) h = Some r
      /\ MinHeap.heapify h = r
      /\ forall fuel, (MinHeap.heapify_fuel h <= fuel)%nat ->
                      MinHeap.heapify_loop fuel h = Some r.
Proof.
  split; [apply heapify_pass_reads_in_range|].
  exists (MinHeap.heapify h). split_and!; [|done|].
  - by apply heapify_loop_enough.
  - intros fuel. apply heapify_loop_enough.
Qed.

(** X4.  [heapify] only moves nodes: the vector it leaves is a permutation
    of the one it was given, of the same size. *)
Theorem X4_heapify_permutes h :
  MinHeap.heapify h ≡ₚ h /\ length (MinHeap.heapify h) = length h.
Proof. split; [apply heapify_perm|apply heapify_length]. Qed.

Lemma heapify_fixed_point r :
  MinHeap.heapify_pass (length r / 2) r true = (r, true) ->
  MinHeap.heapify r = r.
Proof.
  intros Hpass. unfold MinHeap.heapify, MinHeap.heapify_fuel.
  by rewrite heapify_loop_S, Hpass.
Qed.

(** X5.  What [heapify] leaves is stable: every index below [size/2] is
    not above the nodes at [index*2] and [index*2+1], and running [heapify]
    again changes nothing. *)
Theorem X5_heapify_is_idempotent h :
  MinHeap.heapify (MinHeap.heapify h) = MinHeap.heapify h
  /\ forall (index : nat) n c,
       (index < length (MinHeap.heapify h) / 2)%nat ->
       MinHeap.heapify h !! index = Some n ->
       MinHeap.heapify h !! (index * 2)%nat = Some c
       \/ MinHeap.heapify h !! (index * 2 + 1)%nat = Some c ->
       priority n <= priority c.
Proof.
  split; [|apply heapify_orders_shifted_children].
  apply heapify_fixed_point.
  eapply heapify_loop_solved, (heapify_loop_enough _ h). done.
Qed.

(** The order of [heapify] puts a smallest priority at the root, among the
    first [2 * (size / 2)] nodes. *)
Lemma shifted_order_root_minimal r a :
  (forall (index : nat) n c,
      (index < length r / 2)%nat -> r !! index = Some n ->
      r !! (index * 2)%nat = Some c \/ r !! (index * 2 + 1)%nat = Some c ->
      priority n <= priority c) ->
  r !! 0%nat = Some a ->
  forall (j : nat) n,
    (j < 2 * (length r / 2))%nat -> r !! j = Some n -> priority a <= priority n.
Proof.
  intros Hord Ha j. induction (lt_wf j) as [j _ IH]. intros n Hj Hn.
  destruct (decide (j = 0%nat)) as [->|Hpos]; [by simplify_eq|].
  assert (j / 2 < j)%nat by div_lia.
  assert (j / 2 < length r / 2)%nat by div_lia.
  destruct (lookup_lt_is_Some_2 r (j / 2)%nat) as [m Hm]; [div_lia|].
  assert (priority a <= priority m) by (apply (IH (j / 2)%nat); [done|lia|done]).
  assert (priority m <= priority n).
  { apply (Hord (j / 2)%nat m n); [done..|].
    assert (j = j / 2 * 2 \/ j = j / 2 * 2 + 1)%nat as [Hj'|Hj'] by div_lia;
      rewrite <- Hj'; auto. }
  lia.
Qed.

Lemma heapify_root_minimal_prefix h a (j : nat) n :
  MinHeap.heapify h !! 0%nat = Some a ->
  (j < 2 * (length h / 2))%nat -> MinHeap.heapify h !! j = Some n ->
  priority a <= priority n.
Proof.
  intros Ha Hj Hn.
  eapply (shifted_order_root_minimal (MinHeap.heapify h) a); try done.
  - apply heapify_orders_shifted_children.
  - by rewrite heapify_length.
Qed.

Lemma heapify_even_root_minimum h :
  Nat.even (length h) = true -> h <> [] ->
  exists a, MinHeap.heapify h !! 0%nat = Some a
            /\ minimum_priority (priority a) (MinHeap.heapify h).
Proof.
  intros Heven Hne.
  destruct (lookup_lt_is_Some_2 (MinHeap.heapify h) 0%nat) as [a Ha].
  { rewrite heapify_length. destruct h; [done|simpl; lia]. }
  exists a. split; [done|]. split.
  - exists a. split; [by eapply list_elem_of_lookup_2|done].
  - intros n Hn. apply list_elem_of_lookup_1 in Hn as [j Hj].
    apply (heapify_root_minimal_prefix h a j n); [done| |done].
    apply lookup_lt_Some in Hj. rewrite heapify_length in Hj.
    apply Nat.even_spec in Heven as [k Hk]. rewrite Hk in *. div_lia.
Qed.

(** X6.  After [heapify] the root is not above any node at an index below
    [2 * (size / 2)].  On a non-empty vector of even size that is every
    node: the root then holds the smallest priority stored. *)
Theorem X6_heapify_even_size_root_minimum h :
  (forall a (j : nat) n,
      MinHeap.heapify h !! 0%nat = Some a ->
      (j < 2 * (length h / 2))%nat -> MinHeap.heapify h !! j = Some n ->
      priority a <= priority n)
  /\ (Nat.even (length h) = true -> h <> [] ->
      exists a, MinHeap.heapify h !! 0%nat = Some a
                /\ minimum_priority (priority a) (MinHeap.heapify h)
                /\ minimum_priority (priority a) h).
Proof.
  split; [intros a j n; apply heapify_root_minimal_prefix|].
  intros Heven Hne.
  destruct (heapify_even_root_minimum h Heven Hne) as (a & Ha & Hm).
  exists a. split_and!; [done..|].
  destruct Hm as [(m & Hm & Hp) Hall]. split.
  - exists m. split; [|done]. by rewrite <- (heapify_perm h).
  - intros n Hn. apply Hall. by rewrite heapify_perm.
Qed.

Lemma swap_app_l (i j : nat) h t :
  (i < length h)%nat -> (j < length h)%nat ->
  MinHeap.swap i j (h ++ t) = MinHeap.swap i j h ++ t.
Proof.
  intros Hi Hj. unfold MinHeap.swap. rewrite !lookup_app_l by done.
  destruct (h !! i), (h !! j); try done.
  rewrite insert_app_l by done.
  by rewrite insert_app_l by (by rewrite length_insert).
Qed.

Lemma heapify_pass_app (i : nat) h t s :
  (i <= length h / 2)%nat ->
  MinHeap.heapify_pass i (h ++ t) s
  = let '(h', s') := MinHeap.heapify_pass i h s in (h' ++ t, s').
Proof.
  revert h s; induction i as [|i IH]; intros h s Hi; [done|].
  destruct (heapify_pass_reads_in_range h i Hi) as (Hn & Hl & Hr).
  apply lookup_lt_is_Some in Hn, Hl, Hr.
  simpl. rewrite !lookup_app_l by done.
  destruct (h !! i) as [n|]; [|done].
  destruct (h !! (i * 2)%nat) as [l|]; [|done].
  destruct (priority n >? priority l).
  { rewrite swap_app_l by done. apply IH. rewrite swap_length. lia. }
  destruct (h !! (i * 2 + 1)%nat) as [r|]; [|done].
  destruct (priority n >? priority r).
  { rewrite swap_app_l by done. apply IH. rewrite swap_length. lia. }
  apply IH. lia.
Qed.

Lemma heapify_loop_app_even fuel h x :
  Nat.even (length h) = true ->
  MinHeap.heapify_loop fuel (h ++ [x])
  = (fun r => r ++ [x]) <$> MinHeap.heapify_loop fuel h.
Proof.
  revert h; induction fuel as [|fuel IH]; intros h Heven; [done|].
  rewrite !heapify_loop_S.
  assert (length (h ++ [x]) / 2 = length h / 2)%nat as ->.
  { rewrite length_app. simpl.
    apply Nat.even_spec in Heven as [k ->]. div_lia. }
  rewrite heapify_pass_app by done.
  destruct (MinHeap.heapify_pass (length h / 2) h true) as [h' s'] eqn:Hpass.
  destruct s'; [done|]. apply IH.
  destruct (heapify_pass_spec _ _ _ _ _ _ (bounded_max_priority h) Hpass)
    as (Hp & _).
  by rewrite Hp.
Qed.

(** X7.  On a vector of odd size [heapify] never touches the last node: it
    orders the nodes before it as if the last one were not there, whatever
    its priority. *)
Theorem X7_heapify_odd_size_ignores_last h x :
  Nat.even (length h) = true ->
  MinHeap.heapify (h ++ [x]) = MinHeap.heapify h ++ [x].
Proof.
  intros Heven.
  pose (fuel := (MinHeap.heapify_fuel (h ++ [x]) `max` MinHeap.heapify_fuel h)%nat).
  pose proof (heapify_loop_enough fuel (h ++ [x]) ltac:(lia)) as Hl.
  pose proof (heapify_loop_enough fuel h ltac:(lia)) as Hr.
  rewrite heapify_loop_app_even, Hr in Hl by done. simpl in Hl.
  by injection Hl as <-.
Qed.

End HeapPrimitives.

(** * Further properties of the queue *)

Section QueueOperations.
Context {E : Type} `{EqDecision E}.
Context (E_default : E).
Implicit Types (h : list (HeapNode E)) (n a : HeapNode E).
Implicit Types (q : PriorityQueue E) (v : E) (p : Z).

(** X8.  [upHeap] on the vector that [insert] hands it (a [push_back] on
    top of [h]): the [while] loop exits within [size] iterations, the
    result holds the nodes of [h] and the new node, and if [h] was
    heap-ordered (parents [(i-1)/2]) the result is heap-ordered. *)
Theorem X8_upHeap_sifts_the_new_node_up h n :
  MinHeap.upHeap_loop (length (h ++ [n])) (Z.of_nat (length (h ++ [n])) - 1)
    (h ++ [n])
  = Some (MinHeap.upHeap (h ++ [n]))
  /\ MinHeap.upHeap (h ++ [n]) ≡ₚ n :: h
  /\ (min_heap_invariant h -> min_heap_invariant (MinHeap.upHeap (h ++ [n]))).
Proof.
  split_and!.
  - apply upHeap_loop_enough. by destruct h.
  - rewrite upHeap_perm. by rewrite Permutation_app_comm.
  - apply upHeap_restores_order.
Qed.

Lemma min_heap_invariant_nil : min_heap_invariant ([] : list (HeapNode E)).
Proof. intros i n c Hn. by rewrite lookup_nil in Hn. Qed.

(** X9.  [insert] keeps the 0-based min-heap invariant, for any priority.
    So a queue filled by [insert] calls alone, starting from a new queue,
    satisfies it. *)
Theorem X9_insert_keeps_heap_order q :
  (forall p v, min_heap_invariant (minHeap q) ->
               min_heap_invariant (minHeap (insert p v q)))
  /\ (forall items : list (Z * E),
        min_heap_invariant
          (minHeap (fold_left (fun q' pe => insert pe.1 pe.2 q') items new))).
Proof.
  split; [intros p v; apply insert_preserves_min_heap_invariant|].
  intros items.
  assert (forall q0 : PriorityQueue E,
             min_heap_invariant (minHeap q0) ->
             min_heap_invariant
               (minHeap (fold_left (fun q' pe => insert pe.1 pe.2 q') items q0)))
    as Hfold.
  { induction items as [|[p v] items IH]; intros q0 Hq0; [done|].
    simpl. by apply IH, insert_preserves_min_heap_invariant. }
  apply Hfold, min_heap_invariant_nil.
Qed.

Lemma root_minimal h a :
  min_heap_invariant h -> h !! 0%nat = Some a ->
  forall (j : nat) n, h !! j = Some n -> priority a <= priority n.
Proof.
  intros Hinv Ha j. induction (lt_wf j) as [j _ IH]. intros n Hn.
  destruct (decide (j = 0%nat)) as [->|Hpos]; [by simplify_eq|].
  destruct (lookup_lt_is_Some_2 h ((j - 1) / 2)%nat) as [m Hm].
  { apply lookup_lt_Some in Hn. div_lia. }
  assert (priority a <= priority m) by (apply (IH ((j - 1) / 2)%nat); [div_lia|done]).
  assert (priority m <= priority n)
    by (apply (proj1 (min_heap_invariant_parent h) Hinv j n m); [lia|done..]).
  lia.
Qed.

Lemma remove_front_nonempty a h :
  remove_front E_default {| minHeap := a :: h |}
  = (value a, {| minHeap := MinHeap.removeFront (a :: h) |}).
Proof. reflexivity. Qed.

(** X10.  On a non-empty queue whose vector satisfies the min-heap
    invariant, [peek()] and [remove_front()] return the value of the root,
    and the root's priority is the smallest priority stored. *)
Theorem X10_heap_order_serves_a_minimum q :
  min_heap_invariant (minHeap q) -> empty q = false ->
  exists a, minHeap q !! 0%nat = Some a
            /\ peek q = Some (value a)
            /\ (remove_front E_default q).1 = value a
            /\ minimum_priority (priority a) (minHeap q).
Proof.
  intros Hinv Hne. destruct q as [[|a h]]; [done|]. simpl in *.
  exists a. split_and!; try done.
  split.
  - exists a. split; [left|done].
  - intros n Hn. apply list_elem_of_lookup_1 in Hn as [j Hj].
    by eapply (root_minimal (a :: h) a).
Qed.

Lemma MinHeap_insert_perm p v h :
  0 <= p -> MinHeap.insert p v h ≡ₚ Build_HeapNode p v :: h.
Proof.
  intros Hp. unfold MinHeap.insert. destruct (Z.geb_spec p 0); [|lia].
  rewrite upHeap_perm. by rewrite Permutation_app_comm.
Qed.

(** X11.  [insert(p, v)] with [p >= 0] stores exactly one more node, the
    node [(p, v)]: the vector afterwards is a permutation of the old one
    with that node added, and so are the value and priority listings. *)
Theorem X11_insert_adds_the_node q p v :
  0 <= p ->
  minHeap (insert p v q) ≡ₚ Build_HeapNode p v :: minHeap q
  /\ get_all_elements (insert p v q) ≡ₚ v :: get_all_elements q
  /\ get_all_priorities (insert p v q) ≡ₚ p :: get_all_priorities q
  /\ contains v (insert p v q) = true.
Proof.
  intros Hp. pose proof (MinHeap_insert_perm p v (minHeap q) Hp) as Hperm.
  split_and!.
  - done.
  - rewrite !get_all_elements_map. simpl. by rewrite Hperm.
  - rewrite !get_all_priorities_map. simpl. by rewrite Hperm.
  - apply contains_from_spec. exists (Build_HeapNode p v). split; [|done].
    simpl. rewrite Hperm. left.
Qed.

(** X12.  [insert_all] stores every pair it is given, negative priorities
    included: the vector afterwards is a permutation of the old one followed
    by one node per pair. *)
Theorem X12_insert_all_adds_every_pair q (items : list (Z * E)) :
  minHeap (insert_all items q)
  ≡ₚ minHeap q ++ map (fun pe => Build_HeapNode pe.1 pe.2) items
  /\ get_all_priorities (insert_all items q)
     ≡ₚ get_all_priorities q ++ map fst items
  /\ get_all_elements (insert_all items q)
     ≡ₚ get_all_elements q ++ map snd items.
Proof.
  assert (minHeap (insert_all items q)
          ≡ₚ minHeap q ++ map (fun pe => Build_HeapNode pe.1 pe.2) items) as Hperm.
  { simpl. unfold MinHeap.insertAll. by rewrite heapify_perm, push_all_app. }
  split_and!; [done|..].
  - rewrite !get_all_priorities_map, Hperm, map_app, map_map. done.
  - rewrite !get_all_elements_map, Hperm, map_app, map_map. done.
Qed.

Lemma removeFront_perm a h :
  a :: h ≡ₚ a :: MinHeap.removeFront (a :: h).
Proof.
  unfold MinHeap.removeFront, MinHeap.pop_back.
  rewrite heapify_perm, swap_length.
  set (l := MinHeap.swap 0 (length (a :: h) - 1) (a :: h)).
  destruct (lookup_lt_is_Some_2 (a :: h) (length (a :: h) - 1)%nat) as [b Hb];
    [simpl; lia|].
  assert (l !! (length (a :: h) - 1)%nat = Some a) as Hlast
    by (by apply (swap_lookup_r 0 _ (a :: h) a b)).
  assert (l = take (length (a :: h) - 1) l ++ [a]) as Hl.
  { rewrite <- (take_drop (length (a :: h) - 1) l) at 1. f_equal.
    rewrite (drop_S _ _ _ Hlast). f_equal. apply drop_ge.
    unfold l. rewrite swap_length. simpl. lia. }
  transitivity l; [symmetry; apply swap_perm|].
  transitivity (take (length (a :: h) - 1) l ++ [a]); [by rewrite <- Hl|].
  by rewrite Permutation_app_comm.
Qed.

Lemma removeFront_values a h :
  map value (a :: h) ≡ₚ value a :: map value (MinHeap.removeFront (a :: h)).
Proof. exact (Permutation_map value (removeFront_perm a h)). Qed.

(** X13.  On a non-empty queue [remove_front()] returns the value of the
    node at index 0, the value [peek()] returns, and removes exactly that
    node: the old vector is a permutation of the root followed by the new
    vector. *)
Theorem X13_remove_front_removes_the_root q :
  empty q = false ->
  exists a, minHeap q !! 0%nat = Some a
            /\ peek q = Some (value a)
            /\ (remove_front E_default q).1 = value a
            /\ minHeap q ≡ₚ a :: minHeap (remove_front E_default q).2
            /\ get_all_elements q
               ≡ₚ value a :: get_all_elements (remove_front E_default q).2.
Proof.
  intros Hne. destruct q as [[|a h]]; [done|].
  exists a. rewrite remove_front_nonempty. split_and!; try done.
  - apply removeFront_perm.
  - rewrite !get_all_elements_map. apply removeFront_values.
Qed.

Lemma drain_S (k : nat) q :
  drain E_default (S k) q
  = let '(e, q') := remove_front E_default q in
    let '(es, q'') := drain E_default k q' in (e :: es, q'').
Proof. reflexivity. Qed.

Lemma drain_all (k : nat) q :
  size q = k ->
  (drain E_default k q).1 ≡ₚ get_all_elements q
  /\ minHeap (drain E_default k q).2 = [].
Proof.
  revert q; induction k as [|k IH]; intros q Hk.
  - destruct q as [[|a h]]; [|done]. by rewrite get_all_elements_map.
  - destruct q as [[|a h]]; [done|].
    rewrite drain_S, remove_front_nonempty.
    destruct (IH {| minHeap := MinHeap.removeFront (a :: h) |}) as [Hes Hq].
    { unfold size, MinHeap.getSize in *. simpl in *.
      rewrite MinHeap_removeFront_length. simpl. lia. }
    destruct (drain E_default k _) as [es q''] eqn:Hdrain. simpl in *.
    split; [|done].
    rewrite Hes, !get_all_elements_map. simpl.
    symmetry. apply removeFront_values.
Qed.

Lemma drain_empty (k : nat) q :
  minHeap q = [] -> drain E_default k q = (replicate k E_default, q).
Proof.
  intros Hq. destruct q as [h]. simpl in Hq. subst h.
  induction k as [|k IH]; [done|].
  rewrite drain_S.
  change (remove_front E_default {| minHeap := [] |})
    with (E_default, {| minHeap := ([] : list (HeapNode E)) |}).
  cbv beta iota. by rewrite IH.
Qed.

Lemma drain_add (j k : nat) q :
  drain E_default (j + k) q
  = ((drain E_default j q).1 ++ (drain E_default k (drain E_default j q).2).1,
     (drain E_default k (drain E_default j q).2).2).
Proof.
  revert q; induction j as [|j IH]; intros q.
  - simpl. by destruct (drain E_default k q).
  - rewrite Nat.add_succ_l, !drain_S.
    destruct (remove_front E_default q) as [e q']. rewrite IH.
    destruct (drain E_default j q') as [es q'']. simpl.
    by destruct (drain E_default k q'').
Qed.

(** X14.  [size()] successive [remove_front()] calls empty the queue and
    return every stored value exactly once (a permutation of
    [get_all_elements()]); every further call returns [E()] and leaves the
    queue empty. *)
Theorem X14_drain_returns_every_value q (k : nat) :
  (drain E_default (size q) q).1 ≡ₚ get_all_elements q
  /\ empty (drain E_default (size q) q).2 = true
  /\ (drain E_default (size q + k) q).1
     = (drain E_default (size q) q).1 ++ replicate k E_default
  /\ empty (drain E_default (size q + k) q).2 = true.
Proof.
  destruct (drain_all (size q) q eq_refl) as [Hes Hq].
  rewrite drain_add, (drain_empty k _ Hq). simpl.
  unfold empty, MinHeap.getSize. rewrite Hq. by split_and!.
Qed.

End QueueOperations.

(** * Further properties of the lookups *)

Section QueueLookups.
Context {E : Type} `{EqDecision E}.
Context (E_default : E).
Implicit Types (h : list (HeapNode E)) (n a : HeapNode E).
Implicit Types (q : PriorityQueue E) (v w : E) (p : Z).

(** X15.  [findFirst] returns [-1] exactly when no node has the value, and
    otherwise the smallest index whose node has it; the result is always
    in [-1 .. size-1]. *)
Theorem X15_findFirst_smallest_index v h :
  (MinHeap.findFirst v h = -1 <-> forall n, n ∈ h -> value n <> v)
  /\ (MinHeap.findFirst v h <> -1 ->
      exists (k : nat) n,
        MinHeap.findFirst v h = Z.of_nat k
        /\ h !! k = Some n /\ value n = v
        /\ forall (j : nat) m, (j < k)%nat -> h !! j = Some m -> value m <> v)
  /\ -1 <= MinHeap.findFirst v h < Z.of_nat (length h).
Proof.
  unfold MinHeap.findFirst.
  destruct (findFirst_from_spec 0 v h) as [[Hnone Hall]|(k & n & Hk & Hl & Hv & Hb)];
    [lia| |].
  - rewrite Forall_forall in Hall. split_and!; try done; lia.
  - split_and!.
    + split; [lia|]. intros Hall. exfalso.
      apply (Hall n); [by eapply list_elem_of_lookup_2|done].
    + intros _. exists k, n. split_and!; try done.
      intros j m Hj Hm. rewrite Forall_lookup in Hb.
      apply (Hb j m). by rewrite lookup_take_lt.
    + lia.
    + apply lookup_lt_Some in Hl. lia.
Qed.

Lemma contains_elements v q :
  contains v q = true <-> v ∈ get_all_elements q.
Proof.
  unfold contains. rewrite contains_from_spec, get_all_elements_map.
  change (map value (minHeap q)) with (value <$> minHeap q).
  rewrite list_elem_of_fmap. split.
  - intros (n & Hn & Hv). by exists n.
  - intros (n & Hv & Hn). by exists n.
Qed.

(** X16.  [contains(v)] is true exactly when [v] is an entry of
    [get_all_elements()], which is exactly when [findFirst] finds an
    index. *)
Theorem X16_contains_agrees_with_the_listing v q :
  (contains v q = true <-> v ∈ get_all_elements q)
  /\ (contains v q = true <-> MinHeap.findFirst v (minHeap q) <> -1).
Proof.
  split; [apply contains_elements|].
  unfold contains, MinHeap.findFirst. rewrite contains_from_spec.
  destruct (findFirst_from_spec 0 v (minHeap q))
    as [[Hnone Hall]|(k & n & Hk & Hl & Hv & Hb)]; [lia| |].
  - rewrite Forall_forall in Hall. split; [|done].
    intros (n & Hn & Hv). by destruct (Hall n Hn).
  - split; [lia|]. intros _. exists n. split; [|done].
    by eapply list_elem_of_lookup_2.
Qed.

Lemma changePriority_absent v p h :
  (forall n, n ∈ h -> value n <> v) -> MinHeap.changePriority v p h = h.
Proof.
  intros Hall. unfold MinHeap.changePriority, MinHeap.findFirst.
  destruct (findFirst_from_spec 0 v h) as [[-> _]|(k & n & Hk & Hl & Hv & Hb)];
    [lia|done|].
  exfalso. apply (Hall n); [by eapply list_elem_of_lookup_2|done].
Qed.

(** X17.  [change_priority(v, p)] on a queue that does not contain [v]
    changes nothing, and so does not run [heapify]. *)
Theorem X17_change_priority_absent_is_noop q v p :
  contains v q = false -> change_priority v p q = q.
Proof.
  intros Hc. destruct q as [h]. unfold change_priority. simpl. f_equal.
  apply changePriority_absent. intros n Hn Hv.
  assert (contains v {| minHeap := h |} = true) as Ht
    by (apply contains_from_spec; by exists n).
  congruence.
Qed.

Lemma alter_setPriority_values p (k : nat) h :
  map value (alter (setPriority p) k h) = map value h.
Proof.
  revert k; induction h as [|n h IH]; intros [|k]; simpl; try done.
  f_equal. apply IH.
Qed.

(** X18.  [change_priority] never changes which values are stored: the
    value listing afterwards is a permutation of the one before, so
    [contains] answers as before for every value. *)
Theorem X18_change_priority_keeps_the_values q v p :
  get_all_elements (change_priority v p q) ≡ₚ get_all_elements q
  /\ forall w, contains w (change_priority v p q) = contains w q.
Proof.
  assert (get_all_elements (change_priority v p q) ≡ₚ get_all_elements q)
    as Hperm.
  { rewrite !get_all_elements_map. simpl. unfold MinHeap.changePriority.
    destruct (negb _); [|done].
    rewrite (Permutation_map value (heapify_perm _)).
    by rewrite alter_setPriority_values. }
  split; [done|]. intros w.
  pose proof (contains_elements w (change_priority v p q)) as H1.
  pose proof (contains_elements w q) as H2.
  rewrite Hperm in H1.
  destruct (contains w (change_priority v p q)), (contains w q); try done.
  - symmetry. apply H2, H1. done.
  - apply H1, H2. done.
Qed.

Lemma get_priority_not_sentinel v q :
  get_priority v q <> -1 ->
  exists n, n ∈ minHeap q /\ value n = v /\ priority n = get_priority v q.
Proof.
  unfold get_priority. rewrite get_priority_from_spec. simpl.
  unfold first_found_priority_not_sentinel.
  destruct (list_find _ _) as [[i n]|] eqn:Hfind; [|done]. intros _.
  apply list_find_Some in Hfind as (Hi & [Hv _] & _).
  exists n. split_and!; try done. by eapply list_elem_of_lookup_2.
Qed.

Lemma get_priority_sentinel v q :
  get_priority v q = -1 ->
  forall n, n ∈ minHeap q -> value n = v -> priority n = -1.
Proof.
  unfold get_priority. rewrite get_priority_from_spec. simpl.
  unfold first_found_priority_not_sentinel.
  destruct (list_find _ _) as [[i n]|] eqn:Hfind.
  - apply list_find_Some in Hfind as (_ & [_ Hp] & _). done.
  - intros _ n Hn Hv. rewrite list_find_None, Forall_forall in Hfind.
    specialize (Hfind n Hn). simpl in Hfind.
    destruct (decide (priority n = -1)); [done|]. by destruct Hfind.
Qed.

(** X19.  [insert] and [remove_front] keep all stored priorities
    non-negative.  While they are non-negative, [get_priority(v)] returns
    [-1] exactly when the queue does not contain [v], and otherwise the
    non-negative priority of a stored node with value [v]. *)
Theorem X19_non_negative_priorities q :
  Forall (fun z => 0 <= z) (get_all_priorities q) ->
  (forall p v, Forall (fun z => 0 <= z) (get_all_priorities (insert p v q)))
  /\ Forall (fun z => 0 <= z) (get_all_priorities (remove_front E_default q).2)
  /\ (forall v, get_priority v q = -1 <-> contains v q = false)
  /\ (forall v, contains v q = true ->
        0 <= get_priority v q
        /\ exists n, n ∈ minHeap q /\ value n = v
                     /\ priority n = get_priority v q).
Proof.
  intros Hnn.
  assert (forall n, n ∈ minHeap q -> 0 <= priority n) as Hnodes.
  { intros n Hn. rewrite get_all_priorities_map, Forall_forall in Hnn.
    apply Hnn. by apply (list_elem_of_fmap_2 priority). }
  assert (forall v, get_priority v q = -1 <-> contains v q = false) as Hiff.
  { intros v. split.
    - intros Hget. destruct (contains v q) eqn:Hc; [|done].
      apply contains_from_spec in Hc as (n & Hn & Hv).
      pose proof (get_priority_sentinel v q Hget n Hn Hv).
      specialize (Hnodes n Hn). lia.
    - intros Hc. destruct (decide (get_priority v q = -1)) as [|Hne]; [done|].
      apply get_priority_not_sentinel in Hne as (n & Hn & Hv & _).
      assert (contains v q = true)
        by (apply contains_from_spec; by exists n).
      congruence. }
  split_and!; [| |done|].
  - intros p v. destruct (Z.geb_spec p 0) as [Hp|Hp].
    + rewrite get_all_priorities_map. simpl.
      rewrite (Permutation_map priority (MinHeap_insert_perm p v _ ltac:(lia))).
      simpl. constructor; [lia|]. by rewrite <- get_all_priorities_map.
    + assert (insert p v q = q) as ->; [|done].
      destruct q as [h]. unfold insert, MinHeap.insert. simpl.
      destruct (Z.geb_spec p 0); [lia|done].
  - destruct q as [[|a h]]; [done|].
    rewrite remove_front_nonempty. simpl.
    rewrite !get_all_priorities_map in *. simpl in *.
    rewrite (Permutation_map priority (removeFront_perm a h)) in Hnn.
    simpl in Hnn. by apply Forall_cons in Hnn as [_ ?].
  - intros v Hc.
    assert (get_priority v q <> -1) as Hne
      by (intros Heq; apply Hiff in Heq; congruence).
    destruct (get_priority_not_sentinel v q Hne) as (n & Hn & Hv & Hp).
    split; [|by exists n]. rewrite <- Hp. by apply Hnodes.
Qed.

(** X20.  Insert, then look up: after [insert(p, v)] with [p >= 0] on a
    queue that did not contain [v], the value is stored exactly once,
    [contains(v)] is true and [get_priority(v)] returns [p]. *)
Theorem X20_insert_then_get_priority q p v :
  0 <= p -> contains v q = false ->
  stored_once v (minHeap (insert p v q))
  /\ contains v (insert p v q) = true
  /\ get_priority v (insert p v q) = p.
Proof.
  intros Hp Hc.
  pose proof (MinHeap_insert_perm p v (minHeap q) Hp) as Hperm.
  assert (filter (fun n => value n = v) (minHeap q) = []) as Hnil.
  { destruct (filter _ (minHeap q)) as [|n l] eqn:Hfilter; [done|].
    assert (n ∈ filter (fun n => value n = v) (minHeap q)) as Hin
      by (rewrite Hfilter; left).
    apply list_elem_of_filter in Hin as [Hv Hn].
    assert (contains v q = true)
      by (apply contains_from_spec; by exists n).
    congruence. }
  assert (filter (fun n => value n = v) (minHeap (insert p v q))
          = [Build_HeapNode p v]) as Hf.
  { apply Permutation_singleton_r. simpl. rewrite Hperm.
    rewrite filter_cons_True by done. by rewrite Hnil. }
  split_and!.
  - unfold stored_once. by rewrite Hf.
  - apply contains_from_spec. exists (Build_HeapNode p v). split; [|done].
    simpl. rewrite Hperm. left.
  - unfold get_priority. rewrite get_priority_from_filter, Hf. simpl.
    by rewrite decide_True.
Qed.

(** X21.  On a queue whose vector satisfies the min-heap invariant,
    [insert(p, v)] with a non-negative [p] below every stored priority
    makes [v] the value that [peek()] and the next [remove_front()]
    return. *)
Theorem X21_insert_below_all_is_served_next q p v :
  min_heap_invariant (minHeap q) -> 0 <= p ->
  (forall n, n ∈ minHeap q -> p < priority n) ->
  peek (insert p v q) = Some v
  /\ (remove_front E_default (insert p v q)).1 = v.
Proof.
  intros Hinv Hp Hbelow.
  pose proof (insert_preserves_min_heap_invariant q p v Hinv) as Hinv'.
  assert (minHeap (insert p v q) ≡ₚ Build_HeapNode p v :: minHeap q) as Hperm
    by (by apply MinHeap_insert_perm).
  destruct (insert p v q) as [[|a h]]; simpl in *.
  { by apply Permutation_nil_cons in Hperm. }
  assert (a = Build_HeapNode p v) as ->; [|done].
  assert (Build_HeapNode p v ∈ a :: h) as Hin by (rewrite Hperm; left).
  apply list_elem_of_lookup_1 in Hin as [j Hj].
  pose proof (root_minimal (a :: h) a Hinv' eq_refl j _ Hj) as Hle.
  simpl in Hle.
  assert (a ∈ Build_HeapNode p v :: minHeap q) as Ha
    by (rewrite <- Hperm; left).
  apply elem_of_cons in Ha as [->|Ha]; [done|].
  specialize (Hbelow a Ha). lia.
Qed.

(** X22.  Change, then look up: on a queue that contains [v],
    [change_priority(v, p)] rewrites the priority of the first-found node
    with value [v] and only moves nodes afterwards; the node [(p, v)] is
    then stored, and when [v] is stored once [get_priority(v)] returns
    [p], for any [p]. *)
Theorem X22_change_priority_then_get_priority q v p :
  contains v q = true ->
  (exists (k : nat) n,
      MinHeap.findFirst v (minHeap q) = Z.of_nat k
      /\ minHeap q !! k = Some n /\ value n = v
      /\ minHeap (change_priority v p q)
         ≡ₚ <[k := Build_HeapNode p v]> (minHeap q))
  /\ Build_HeapNode p v ∈ minHeap (change_priority v p q)
  /\ (stored_once v (minHeap q) ->
      stored_once v (minHeap (change_priority v p q))
      /\ get_priority v (change_priority v p q) = p).
Proof.
  intros Hc. destruct q as [h]. unfold contains in Hc. simpl in *.
  apply contains_from_spec in Hc as (n0 & Hn0 & Hv0).
  destruct (findFirst_from_spec 0 v h) as [[_ Hall]|(k & n & Hk & Hl & Hv & Hb)];
    [lia| |].
  { rewrite Forall_forall in Hall. by destruct (Hall _ Hn0). }
  assert (MinHeap.changePriority v p h
          = MinHeap.heapify (alter (setPriority p) k h)) as Hcp.
  { unfold MinHeap.changePriority, MinHeap.findFirst. rewrite Hk.
    destruct (Z.eqb_spec (0 + Z.of_nat k) (-1)); [lia|]. simpl.
    by replace (Z.to_nat (0 + Z.of_nat k)) with k by lia. }
  assert (setPriority p n = Build_HeapNode p v) as Hset
    by (unfold setPriority; by rewrite Hv).
  assert (alter (setPriority p) k h = <[k := Build_HeapNode p v]> h) as Halter.
  { apply list_eq. intros j. destruct (decide (k = j)) as [<-|Hne].
    - rewrite list_lookup_alter_eq, Hl. simpl. rewrite Hset.
      symmetry. apply list_lookup_insert_eq. by eapply lookup_lt_Some.
    - by rewrite list_lookup_alter_ne, list_lookup_insert_ne. }
  assert (MinHeap.changePriority v p h ≡ₚ <[k := Build_HeapNode p v]> h)
    as Hperm by (by rewrite Hcp, heapify_perm, Halter).
  split_and!.
  - exists k, n. by split_and!.
  - rewrite Hperm. apply list_elem_of_insert. by eapply lookup_lt_Some.
  - intros Honce. unfold stored_once in *.
    assert (filter (fun m => value m = v) (MinHeap.changePriority v p h)
            = [Build_HeapNode p v]) as Hf.
    { apply Permutation_singleton_r.
      rewrite Hcp, heapify_perm, <- Hset.
      by rewrite (filter_alter_once _ _ _ _ _ Honce Hl Hv). }
    split; [by rewrite Hf|].
    unfold get_priority. simpl.
    rewrite get_priority_from_filter, Hf. simpl.
    by rewrite decide_True.
Qed.

(** X23.  [insert_all] and [remove_front] end with [heapify]: when they
    leave a non-empty queue of even size, the node at index 0, whose value
    [peek()] then returns, has the smallest priority stored. *)
Theorem X23_even_size_serves_a_minimum q :
  (forall items : list (Z * E),
      Nat.even (size (insert_all items q)) = true ->
      empty (insert_all items q) = false ->
      exists a, minHeap (insert_all items q) !! 0%nat = Some a
                /\ peek (insert_all items q) = Some (value a)
                /\ minimum_priority (priority a) (minHeap (insert_all items q)))
  /\ (Nat.even (size (remove_front E_default q).2) = true ->
      empty (remove_front E_default q).2 = false ->
      exists a, minHeap (remove_front E_default q).2 !! 0%nat = Some a
                /\ peek (remove_front E_default q).2 = Some (value a)
                /\ minimum_priority (priority a)
                     (minHeap (remove_front E_default q).2)).
Proof.
  assert (forall h, Nat.even (length (MinHeap.heapify h)) = true ->
                    (length (MinHeap.heapify h) =? 0)%nat = false ->
                    exists a, MinHeap.heapify h !! 0%nat = Some a
                              /\ MinHeap.getMin (MinHeap.heapify h) = Some (value a)
                              /\ minimum_priority (priority a) (MinHeap.heapify h))
    as Hheap.
  { intros h Heven Hne. rewrite heapify_length in Heven, Hne.
    destruct (heapify_even_root_minimum h Heven) as (a & Ha & Hm).
    { intros ->. done. }
    exists a. split_and!; [done| |done]. unfold MinHeap.getMin. by rewrite Ha. }
  split.
  - intros items. apply Hheap.
  - destruct q as [[|a h]]; [done|].
    rewrite remove_front_nonempty. apply Hheap.
Qed.

End QueueLookups.

(** * The further properties on concrete vectors and queues *)

Lemma queue_bca_heap_ordered : min_heap_invariant (minHeap queue_bca).
Proof.
  unfold queue_bca.
  repeat apply insert_preserves_min_heap_invariant.
  apply min_heap_invariant_nil.
Qed.

Lemma queue_bca_priorities : get_all_priorities queue_bca = [1; 2; 3].
Proof. vm_compute. reflexivity. Qed.

(** X2 on the vector [(1,"b"), (2,"c"), (3,"a")], indices 0 and 2. *)
Lemma X2_swap_exchanges_two_nodes_witness :
  [Build_HeapNode 1 "b"; Build_HeapNode 2 "c"; Build_HeapNode 3 "a"] !! 0%nat
  = Some (Build_HeapNode 1 "b")
  /\ MinHeap.swap 0 2
       [Build_HeapNode 1 "b"; Build_HeapNode 2 "c"; Build_HeapNode 3 "a"] !! 0%nat
     = Some (Build_HeapNode 3 "a")
  /\ MinHeap.swap 0 2
       (MinHeap.swap 0 2
          [Build_HeapNode 1 "b"; Build_HeapNode 2 "c"; Build_HeapNode 3 "a"])
     = [Build_HeapNode 1 "b"; Build_HeapNode 2 "c"; Build_HeapNode 3 "a"].
Proof.
  destruct (X2_swap_exchanges_two_nodes 0 2
              [Build_HeapNode 1 "b"; Build_HeapNode 2 "c"; Build_HeapNode 3 "a"]
              (Build_HeapNode 1 "b") (Build_HeapNode 3 "a") eq_refl eq_refl)
    as (H0 & _ & _ & _ & Hinv).
  split_and!; [reflexivity|exact H0|exact Hinv].
Defined.

(** X3 on the vector [(5,"a"), (1,"b"), (3,"c"), (2,"d")]. *)
Lemma X3_heapify_loop_exits_witness :
  (S 1 <= length [Build_HeapNode 5 "a"; Build_HeapNode 1 "b";
                   Build_HeapNode 3 "c"; Build_HeapNode 2 "d"] / 2)%nat
  /\ is_Some ([Build_HeapNode 5 "a"; Build_HeapNode 1 "b";
               Build_HeapNode 3 "c"; Build_HeapNode 2 "d"] !! (1 * 2 + 1)%nat)
  /\ exists r,
      MinHeap.heapify_loop 100
        [Build_HeapNode 5 "a"; Build_HeapNode 1 "b";
         Build_HeapNode 3 "c"; Build_HeapNode 2 "d"] = Some r
      /\ MinHeap.heapify
           [Build_HeapNode 5 "a"; Build_HeapNode 1 "b";
            Build_HeapNode 3 "c"; Build_HeapNode 2 "d"] = r.
Proof.
  destruct (X3_heapify_loop_exits
              [Build_HeapNode 5 "a"; Build_HeapNode 1 "b";
               Build_HeapNode 3 "c"; Build_HeapNode 2 "d"])
    as (Hrange & r & _ & Heq & Hfuel).
  assert (S 1 <= length [Build_HeapNode 5 "a"; Build_HeapNode 1 "b";
                          Build_HeapNode 3 "c"; Build_HeapNode 2 "d"] / 2)%nat
    as Hle by (vm_compute; lia).
  split_and!.
  - exact Hle.
  - apply (Hrange 1%nat Hle).
  - exists r. split; [|exact Heq]. apply Hfuel. vm_compute. lia.
Defined.

(** X5 on the same vector, at index 1. *)
Lemma X5_heapify_is_idempotent_witness :
  exists n c,
    MinHeap.heapify [Build_HeapNode 5 "a"; Build_HeapNode 1 "b";
                     Build_HeapNode 3 "c"; Build_HeapNode 2 "d"] !! 1%nat
    = Some n
    /\ MinHeap.heapify [Build_HeapNode 5 "a"; Build_HeapNode 1 "b";
                        Build_HeapNode 3 "c"; Build_HeapNode 2 "d"] !! 3%nat
       = Some c
    /\ priority n <= priority c.
Proof.
  destruct (X5_heapify_is_idempotent
              [Build_HeapNode 5 "a"; Build_HeapNode 1 "b";
               Build_HeapNode 3 "c"; Build_HeapNode 2 "d"]) as [_ Hord].
  eexists _, _. split_and!.
  - vm_compute. reflexivity.
  - vm_compute. reflexivity.
  - apply (Hord 1%nat).
    + vm_compute. lia.
    + vm_compute. reflexivity.
    + right. vm_compute. reflexivity.
Defined.

(** X6 on the same vector, of size 4. *)
Lemma X6_heapify_even_size_root_minimum_witness :
  Nat.even (length [Build_HeapNode 5 "a"; Build_HeapNode 1 "b";
                    Build_HeapNode 3 "c"; Build_HeapNode 2 "d"]) = true
  /\ exists a,
      MinHeap.heapify [Build_HeapNode 5 "a"; Build_HeapNode 1 "b";
                       Build_HeapNode 3 "c"; Build_HeapNode 2 "d"] !! 0%nat
      = Some a
      /\ minimum_priority (priority a)
           [Build_HeapNode 5 "a"; Build_HeapNode 1 "b";
            Build_HeapNode 3 "c"; Build_HeapNode 2 "d"].
Proof.
  split; [reflexivity|].
  destruct (X6_heapify_even_size_root_minimum
              [Build_HeapNode 5 "a"; Build_HeapNode 1 "b";
               Build_HeapNode 3 "c"; Build_HeapNode 2 "d"]) as [_ Heven].
  destruct (Heven eq_refl ltac:(discriminate)) as (a & Ha & _ & Hm).
  exists a. split; [exact Ha|exact Hm].
Defined.

(** X7 on [(5,"a"), (1,"b")] followed by [(0,"c")]. *)
Lemma X7_heapify_odd_size_ignores_last_witness :
  Nat.even (length [Build_HeapNode 5 "a"; Build_HeapNode 1 "b"]) = true
  /\ MinHeap.heapify ([Build_HeapNode 5 "a"; Build_HeapNode 1 "b"]
                      ++ [Build_HeapNode 0 "c"])
     = MinHeap.heapify [Build_HeapNode 5 "a"; Build_HeapNode 1 "b"]
       ++ [Build_HeapNode 0 "c"].
Proof.
  split; [reflexivity|].
  apply (X7_heapify_odd_size_ignores_last
           [Build_HeapNode 5 "a"; Build_HeapNode 1 "b"] (Build_HeapNode 0 "c")).
  reflexivity.
Defined.

(** X8 on the heap-ordered vector of [queue_bca] and the new node
    [(0,"z")]. *)
Lemma X8_upHeap_sifts_the_new_node_up_witness :
  min_heap_invariant (minHeap queue_bca)
  /\ min_heap_invariant
       (MinHeap.upHeap (minHeap queue_bca ++ [Build_HeapNode 0 "z"])).
Proof.
  split; [exact queue_bca_heap_ordered|].
  destruct (X8_upHeap_sifts_the_new_node_up (minHeap queue_bca)
              (Build_HeapNode 0 "z")) as (_ & _ & Hinv).
  exact (Hinv queue_bca_heap_ordered).
Defined.

(** X9 on [queue_bca] and [insert(0,"z")]. *)
Lemma X9_insert_keeps_heap_order_witness :
  min_heap_invariant (minHeap queue_bca)
  /\ min_heap_invariant (minHeap (insert 0 "z" queue_bca)).
Proof.
  split; [exact queue_bca_heap_ordered|].
  exact (proj1 (X9_insert_keeps_heap_order queue_bca) 0 "z"
           queue_bca_heap_ordered).
Defined.

(** X10 on [queue_bca]. *)
Lemma X10_heap_order_serves_a_minimum_witness :
  min_heap_invariant (minHeap queue_bca) /\ empty queue_bca = false
  /\ exists a, minHeap queue_bca !! 0%nat = Some a
               /\ peek queue_bca = Some (value a)
               /\ (remove_front "" queue_bca).1 = value a
               /\ minimum_priority (priority a) (minHeap queue_bca).
Proof.
  split_and!; [exact queue_bca_heap_ordered|reflexivity|].
  exact (X10_heap_order_serves_a_minimum "" queue_bca
           queue_bca_heap_ordered eq_refl).
Defined.

(** X11 on [queue_bca] and [insert(7,"z")]. *)
Lemma X11_insert_adds_the_node_witness :
  0 <= 7
  /\ minHeap (insert 7 "z" queue_bca) ≡ₚ Build_HeapNode 7 "z" :: minHeap queue_bca
  /\ get_all_elements (insert 7 "z" queue_bca) ≡ₚ "z" :: get_all_elements queue_bca
  /\ get_all_priorities (insert 7 "z" queue_bca) ≡ₚ 7 :: get_all_priorities queue_bca
  /\ contains "z" (insert 7 "z" queue_bca) = true.
Proof.
  split; [lia|]. apply (X11_insert_adds_the_node queue_bca 7 "z"). lia.
Defined.

(** X13 on [queue_bca]. *)
Lemma X13_remove_front_removes_the_root_witness :
  empty queue_bca = false
  /\ exists a, minHeap queue_bca !! 0%nat = Some a
               /\ peek queue_bca = Some (value a)
               /\ (remove_front "" queue_bca).1 = value a
               /\ minHeap queue_bca ≡ₚ a :: minHeap (remove_front "" queue_bca).2
               /\ get_all_elements queue_bca
                  ≡ₚ value a :: get_all_elements (remove_front "" queue_bca).2.
Proof.
  split; [reflexivity|].
  exact (X13_remove_front_removes_the_root "" queue_bca eq_refl).
Defined.

(** X15 on the vector of [queue_bca] and the value ["a"]. *)
Lemma X15_findFirst_smallest_index_witness :
  MinHeap.findFirst "a" (minHeap queue_bca) <> -1
  /\ exists (k : nat) n,
      MinHeap.findFirst "a" (minHeap queue_bca) = Z.of_nat k
      /\ minHeap queue_bca !! k = Some n /\ value n = "a".
Proof.
  assert (MinHeap.findFirst "a" (minHeap queue_bca) <> -1) as Hne
    by (vm_compute; discriminate).
  split; [exact Hne|].
  destruct (X15_findFirst_smallest_index "a" (minHeap queue_bca))
    as (_ & Hfound & _).
  destruct (Hfound Hne) as (k & n & Hk & Hn & Hv & _).
  exists k, n. split_and!; assumption.
Defined.

(** X16 on [queue_bca] and the value ["a"]. *)
Lemma X16_contains_agrees_with_the_listing_witness :
  contains "a" queue_bca = true /\ "a" ∈ get_all_elements queue_bca.
Proof.
  split; [reflexivity|].
  apply (proj1 (X16_contains_agrees_with_the_listing "a" queue_bca)).
  reflexivity.
Defined.

(** X17 on [queue_bca] and the absent value ["z"]. *)
Lemma X17_change_priority_absent_is_noop_witness :
  contains "z" queue_bca = false /\ change_priority "z" 0 queue_bca = queue_bca.
Proof.
  split; [reflexivity|].
  apply (X17_change_priority_absent_is_noop queue_bca "z" 0). reflexivity.
Defined.

(** X19 on [queue_bca], whose priorities are 1, 2, 3. *)
Lemma X19_non_negative_priorities_witness :
  Forall (fun z => 0 <= z) (get_all_priorities queue_bca)
  /\ Forall (fun z => 0 <= z) (get_all_priorities (insert 7 "z" queue_bca))
  /\ Forall (fun z => 0 <= z) (get_all_priorities (remove_front "" queue_bca).2)
  /\ (get_priority "z" queue_bca = -1 <-> contains "z" queue_bca = false)
  /\ 0 <= get_priority "a" queue_bca.
Proof.
  assert (Forall (fun z => 0 <= z) (get_all_priorities queue_bca)) as Hnn
    by (rewrite queue_bca_priorities; repeat constructor; lia).
  destruct (X19_non_negative_priorities "" queue_bca Hnn)
    as (Hins & Hrem & Hiff & Hget).
  split_and!.
  - exact Hnn.
  - apply Hins.
  - exact Hrem.
  - apply Hiff.
  - apply (Hget "a"). reflexivity.
Defined.

(** X20 on [queue_bca] and [insert(7,"z")]. *)
Lemma X20_insert_then_get_priority_witness :
  0 <= 7 /\ contains "z" queue_bca = false
  /\ stored_once "z" (minHeap (insert 7 "z" queue_bca))
  /\ contains "z" (insert 7 "z" queue_bca) = true
  /\ get_priority "z" (insert 7 "z" queue_bca) = 7.
Proof.
  split_and!; [lia|reflexivity|..];
    apply (X20_insert_then_get_priority queue_bca 7 "z"); (lia || reflexivity).
Defined.

(** X21 on [queue_bca] and [insert(0,"z")]: 0 is below 1, 2 and 3. *)
Lemma X21_insert_below_all_is_served_next_witness :
  min_heap_invariant (minHeap queue_bca) /\ 0 <= 0
  /\ (forall n, n ∈ minHeap queue_bca -> 0 < priority n)
  /\ peek (insert 0 "z" queue_bca) = Some "z"
  /\ (remove_front "" (insert 0 "z" queue_bca)).1 = "z".
Proof.
  assert (forall n, n ∈ minHeap queue_bca -> 0 < priority n) as Hbelow.
  { rewrite queue_bca_heap. intros n Hn. elem_cases Hn; simpl; lia. }
  split_and!; [exact queue_bca_heap_ordered|lia|exact Hbelow|..];
    apply (X21_insert_below_all_is_served_next "" queue_bca 0 "z"
             queue_bca_heap_ordered ltac:(lia) Hbelow).
Defined.

(** X22 on [queue_bca]: ["a"] is stored once; [change_priority("a", 9)]. *)
Lemma X22_change_priority_then_get_priority_witness :
  contains "a" queue_bca = true /\ stored_once "a" (minHeap queue_bca)
  /\ Build_HeapNode 9 "a" ∈ minHeap (change_priority "a" 9 queue_bca)
  /\ get_priority "a" (change_priority "a" 9 queue_bca) = 9.
Proof.
  assert (stored_once "a" (minHeap queue_bca)) as Honce
    by (vm_compute; reflexivity).
  assert (contains "a" queue_bca = true) as Hc by reflexivity.
  destruct (X22_change_priority_then_get_priority queue_bca "a" 9 Hc)
    as (_ & Hin & Hget).
  destruct (Hget Honce) as [_ Hp].
  split_and!; [exact Hc|exact Honce|exact Hin|exact Hp].
Defined.

(** X23 on [queue_bca]: [insert_all] of one pair and [remove_front] both
    leave an even size. *)
Lemma X23_even_size_serves_a_minimum_witness :
  Nat.even (size (insert_all [(0, "z")] queue_bca)) = true
  /\ Nat.even (size (remove_front "" queue_bca).2) = true
  /\ (exists a, minHeap (insert_all [(0, "z")] queue_bca) !! 0%nat = Some a
                /\ peek (insert_all [(0, "z")] queue_bca) = Some (value a)
                /\ minimum_priority (priority a)
                     (minHeap (insert_all [(0, "z")] queue_bca)))
  /\ (exists a, minHeap (remove_front "" queue_bca).2 !! 0%nat = Some a
                /\ peek (remove_front "" queue_bca).2 = Some (value a)
                /\ minimum_priority (priority a)
                     (minHeap (remove_front "" queue_bca).2)).
Proof.
  destruct (X23_even_size_serves_a_minimum "" queue_bca) as [Hall Hrem].
  split_and!.
  - reflexivity.
  - reflexivity.
  - apply (Hall [(0, "z")]); reflexivity.
  - apply Hrem; reflexivity.
Defined.
